(** * EdisonMDNS: the discovery result pipeline of iotkit-comm-js

    A shallow embedding of [lib/core/EdisonMDNS.js]: the service cache, the
    detection of local services, the ranking of addresses by longest matching
    prefix, the query filter and the [serviceUp] handler that glues them
    together.

    Conventions of the embedding.
    - A JavaScript string is a [string]; characters are compared as the
      source compares them (position by position, by equality), and the
      default [Array.prototype.sort] order is the code-unit order, which on
      the one-byte characters of a [string] is [String.compare].
    - A JavaScript object used as a dictionary whose keys are enumerated by
      [Object.keys] is a [jsobj]: its own properties in insertion order.
    - [exports.serviceCache] is a plain object, so [exports.serviceCache[name]]
      and [exports.serviceCache[name][address]] go through the prototype
      chain.  A [cache] holds the own properties of the cache object and the
      properties the code has added to [Object.prototype] and to the functions
      that [Object.prototype] carries; a service name is looked up the way
      JavaScript looks it up.
    - Addresses are the IPv4 strings that [getaddrinfo] resolves: an address
      is never the name of a built-in property of an object, a function or a
      boolean, and never a number.  Service names are arbitrary strings.
    - Module-level mutable state ([exports.serviceCache], [exports.browser])
      is passed explicitly; [exports.myaddresses], filled once by the
      constructor, is a section variable. *)

From Stdlib Require Import String Ascii NArith ZArith Bool Lia Permutation.
From stdpp Require Import gmap strings list.
From Stdlib Require Import Sorted.

Local Open Scope string_scope.

(** ** JavaScript objects as ordered dictionaries *)

Module JsObj.

Definition jsobj (V : Type) : Type := list (string * V).

Section Ops.
Context {V : Type}.

(** [o[k]]: the value of the own property [k], if there is one. *)
Fixpoint get (o : jsobj V) (k : string) : option V :=
  match o with
  | [] => None
  | (k', v) :: o' => if String.eqb k' k then Some v else get o' k
  end.

(** [o[k] = v]: an existing property keeps its place, a new one is
    created after all the others. *)
Fixpoint set (o : jsobj V) (k : string) (v : V) : jsobj V :=
  match o with
  | [] => [(k, v)]
  | (k', v') :: o' =>
      if String.eqb k' k then (k', v) :: o' else (k', v') :: set o' k v
  end.
End Ops.

(** Array indices: canonical decimal numerals below 2^32 - 1.  Own
    properties named by an array index are enumerated first, in ascending
    numeric order; all other string keys follow in insertion order. *)
Definition digit_of (c : ascii) : option N :=
  let n := N_of_ascii c in
  if (48 <=? n)%N && (n <=? 57)%N then Some (n - 48)%N else None.

Fixpoint parse_digits (s : string) (acc : N) : option N :=
  match s with
  | EmptyString => Some acc
  | String c s' =>
      match digit_of c with
      | Some d => parse_digits s' (10 * acc + d)%N
      | None => None
      end
  end.

Definition array_index (k : string) : option N :=
  match k with
  | EmptyString => None
  | String "0"%char EmptyString => Some 0%N
  | String "0"%char _ => None
  | _ =>
      match parse_digits k 0 with
      | Some n => if (n <? 2 ^ 32 - 1)%N then Some n else None
      | None => None
      end
  end.

Fixpoint insert_index (x : N * string) (l : list (N * string)) : list (N * string) :=
  match l with
  | [] => [x]
  | y :: l' => if (fst x <=? fst y)%N then x :: y :: l' else y :: insert_index x l'
  end.

Definition sort_index (l : list (N * string)) : list (N * string) :=
  fold_right insert_index [] l.

Definition index_keys {V} (o : jsobj V) : list (N * string) :=
  flat_map (fun kv => match array_index (fst kv) with
                      | Some n => [(n, fst kv)]
                      | None => []
                      end) o.

Definition string_keys {V} (o : jsobj V) : list string :=
  flat_map (fun kv => match array_index (fst kv) with
                      | Some _ => []
                      | None => [fst kv]
                      end) o.

(** [Object.keys(o)] *)
Definition keys {V} (o : jsobj V) : list string :=
  map snd (sort_index (index_keys o)) ++ string_keys o.

End JsObj.

Import JsObj.

(** Truthiness of the values the source tests with [!x] or [if (x)]. *)
Definition truthy_string (s : string) : bool := negb (String.eqb s "").

Definition truthy_opt_string (s : option string) : bool :=
  match s with
  | Some s => truthy_string s
  | None => false
  end.

(** [!o[k]] on a dictionary of flags: an absent property is [undefined]. *)
Definition flag_set (o : jsobj bool) (k : string) : bool :=
  match get o k with
  | Some b => b
  | None => false
  end.

(** ** Array.prototype.sort with the default comparison *)

Fixpoint sort_insert (x : string) (l : list string) : list string :=
  match l with
  | [] => [x]
  | y :: l' => if String.leb x y then x :: y :: l' else y :: sort_insert x l'
  end.

Definition js_sort (l : list string) : list string :=
  fold_right sort_insert [] l.

(** [allPrefixLengths.sort(function(n1,n2){return n1 - n2})] *)
Fixpoint num_insert (x : nat) (l : list nat) : list nat :=
  match l with
  | [] => [x]
  | y :: l' => if (x <=? y)%nat then x :: y :: l' else y :: num_insert x l'
  end.

Definition num_sort (l : list nat) : list nat := fold_right num_insert [] l.

(** ** Prefix matching *)

(** The loop of [getMatchingPrefixLen]: [i] advances while it is inside both
    strings and the characters at [i] agree.  [fuel] bounds the number of
    iterations; the length of the first string is always enough. *)
Fixpoint prefix_loop (fuel : nat) (serviceAddress myaddress : string) (i : nat) : nat :=
  match fuel with
  | O => i
  | S fuel' =>
      if (i <? String.length serviceAddress)%nat
         && (i <? String.length myaddress)%nat
         && (match String.get i serviceAddress, String.get i myaddress with
             | Some c1, Some c2 => Ascii.eqb c1 c2
             | _, _ => false
             end)
      then prefix_loop fuel' serviceAddress myaddress (S i)
      else i
  end.

Definition getMatchingPrefixLen (serviceAddress myaddress : string) : nat :=
  prefix_loop (String.length serviceAddress) serviceAddress myaddress 0.

(** The same count by structural recursion on the two strings. *)
Fixpoint common_prefix_len (a b : string) : nat :=
  match a, b with
  | String c1 a', String c2 b' =>
      if Ascii.eqb c1 c2 then S (common_prefix_len a' b') else O
  | _, _ => O
  end.


(** ** Service records as delivered by the mDNS engine *)

(** A raw record: [{name, type, port, addresses, properties}].  A field the
    engine left out is [None]; [port] is a number, a property value a
    string. *)
Record service : Type := {
  name : option string;
  type : string;
  port : option Z;
  addresses : option (list string);
  properties : option (jsobj string)
}.

(** Errors: the runtime's [TypeError], whose text depends on the engine, and
    [new Error(message)]. *)
Inductive js_error : Type :=
| TypeError
| Error (message : string).

(** A computation returns a value or raises. *)
Inductive outcome (A : Type) : Type :=
| Ok (a : A)
| Raise (e : js_error).

Arguments Ok {A} a.
Arguments Raise {A} e.

(** The properties of [Object.prototype] whose values are functions; its
    remaining property, [__proto__], is an accessor. *)
Definition objectPrototypeFunctions : list string :=
  ["constructor"; "__defineGetter__"; "__defineSetter__"; "hasOwnProperty";
   "__lookupGetter__"; "__lookupSetter__"; "isPrototypeOf";
   "propertyIsEnumerable"; "toString"; "valueOf"; "toLocaleString"].

(** [exports.serviceCache] and what lies behind it: [own] holds the own
    properties of the cache object (service name -> { address : true }),
    [protoFlags] the properties that have been added to [Object.prototype],
    [fnFlags] those added to the functions of [Object.prototype], by the name
    under which [Object.prototype] carries the function. *)
Record cache : Type := {
  own : gmap string (jsobj bool);
  protoFlags : jsobj bool;
  fnFlags : gmap string (jsobj bool)
}.

(** The cache when the module is loaded. *)
Definition freshCache : cache :=
  {| own := ∅; protoFlags := []; fnFlags := ∅ |}.

(** The objects an address can be flagged on. *)
Inductive objref : Type :=
| RefEntry (serviceName : string)
| RefObjectPrototype
| RefFunction (property : string).

(** What [exports.serviceCache[serviceName]] evaluates to. *)
Inductive lookup_result : Type :=
| IsObject (r : objref)
| IsPrimitive
| IsUndefined.

(** [exports.serviceCache[serviceName]]: an own property of the cache
    object; else, from [Object.prototype], the prototype itself for
    [__proto__], one of its functions, or a flag that was added to it, which
    is the boolean [true]; else [undefined]. *)
Definition resolve (c : cache) (serviceName : string) : lookup_result :=
  match own c !! serviceName with
  | Some _ => IsObject (RefEntry serviceName)
  | None =>
      if String.eqb serviceName "__proto__" then IsObject RefObjectPrototype
      else if existsb (String.eqb serviceName) objectPrototypeFunctions
      then IsObject (RefFunction serviceName)
      else match get (protoFlags c) serviceName with
           | Some _ => IsPrimitive
           | None => IsUndefined
           end
  end.

(** The own properties of an object that the code may have added. *)
Definition ownProperties (c : cache) (r : objref) : jsobj bool :=
  match r with
  | RefEntry serviceName => default ([] : jsobj bool) (own c !! serviceName)
  | RefObjectPrototype => protoFlags c
  | RefFunction f => default ([] : jsobj bool) (fnFlags c !! f)
  end.

Definition setOwnProperties (c : cache) (r : objref) (o : jsobj bool) : cache :=
  match r with
  | RefEntry serviceName =>
      {| own := <[serviceName := o]> (own c); protoFlags := protoFlags c;
         fnFlags := fnFlags c |}
  | RefObjectPrototype =>
      {| own := own c; protoFlags := o; fnFlags := fnFlags c |}
  | RefFunction f =>
      {| own := own c; protoFlags := protoFlags c;
         fnFlags := <[f := o]> (fnFlags c) |}
  end.

(** What an address that is not an own property of the object is found to
    be further up the chain: a cache entry and a function end in
    [Object.prototype], which itself ends the chain. *)
Definition inheritedFlag (c : cache) (r : objref) (address : string) : bool :=
  match r with
  | RefObjectPrototype => false
  | _ => flag_set (protoFlags c) address
  end.

(** The truthiness of [object[address]]. *)
Definition readFlag (c : cache) (r : objref) (address : string) : bool :=
  match get (ownProperties c r) address with
  | Some b => b
  | None => inheritedFlag c r address
  end.

(** [exports.LOCAL_ADDR] *)
Definition LOCAL_ADDR : string := "127.0.0.1".

Section Pipeline.

(** [exports.myaddresses] *)
Variable myaddresses : list string.

(** [serviceIsLocal] *)
Definition serviceIsLocal (serviceAddresses : option (list string)) : bool :=
  match serviceAddresses with
  | None => false
  | Some [] => false
  | Some l =>
      existsb (fun serviceAddress =>
                 existsb (fun myaddress => String.eqb serviceAddress myaddress)
                         myaddresses) l
  end.

(** The body of the inner [forEach] of [getAddressesWithLongestPrefixMatch]:
    [resultStore] maps a prefix length to the dictionary of the addresses
    that reach it. *)
Definition storeMatch (serviceAddress : string) (resultStore : gmap nat (jsobj bool))
    (myaddress : string) : gmap nat (jsobj bool) :=
  let matchingPrefixLen := getMatchingPrefixLen serviceAddress myaddress in
  let resultStore :=
    match resultStore !! matchingPrefixLen with
    | None => <[matchingPrefixLen := []]> resultStore
    | Some _ => resultStore
    end in
  <[matchingPrefixLen :=
      set (default [] (resultStore !! matchingPrefixLen)) serviceAddress true]>
    resultStore.

Definition buildResultStore (serviceAddresses : list string) : gmap nat (jsobj bool) :=
  fold_left (fun resultStore serviceAddress =>
               fold_left (storeMatch serviceAddress) myaddresses resultStore)
            serviceAddresses ∅.

(** [getAddressesWithLongestPrefixMatch].  The keys of [resultStore] are
    numbers; whatever order [Object.keys] lists them in, they are sorted
    numerically before the last one is taken.  The last one is a key of
    [resultStore], so the lookup that follows never misses. *)
Definition getAddressesWithLongestPrefixMatch (serviceAddresses : list string)
    : list string :=
  let resultStore := buildResultStore serviceAddresses in
  let allPrefixLengths := map fst (map_to_list resultStore) in
  match allPrefixLengths with
  | [] => []
  | _ =>
      let allPrefixLengths := num_sort allPrefixLengths in
      match resultStore !! List.last allPrefixLengths O with
      | Some group => keys group
      | None => []
      end
  end.

(** The address ranking operation: lines 320-321 of [serviceAddressFilter],
    the longest-prefix group put in the default sort order. *)
Definition rankAddresses (candidates : list string) : list string :=
  js_sort (getAddressesWithLongestPrefixMatch candidates).

(** The body of the [forEach] of [serviceAddressFilter]: the state is the
    cache and the array [notSeenBefore], or the error that has ended the
    loop.  An entry is created when the name looks up to [undefined].  An
    address that is not found is set on the object the name looks up to and
    pushed; when the name looks up to a boolean, the assignment of line
    303 raises, the function being strict. *)
Definition noteAddress (serviceName : string)
    (st : cache * outcome (list string)) (address : string)
    : cache * outcome (list string) :=
  match st with
  | (serviceCache, Raise e) => (serviceCache, Raise e)
  | (serviceCache, Ok notSeenBefore) =>
      let serviceCache :=
        match resolve serviceCache serviceName with
        | IsUndefined => setOwnProperties serviceCache (RefEntry serviceName) []
        | _ => serviceCache
        end in
      match resolve serviceCache serviceName with
      | IsObject r =>
          if negb (readFlag serviceCache r address)
          then (setOwnProperties serviceCache r
                  (set (ownProperties serviceCache r) address true),
                Ok (notSeenBefore ++ [address])%list)
          else (serviceCache, Ok notSeenBefore)
      | IsPrimitive =>
          if negb (flag_set (protoFlags serviceCache) address)
          then (serviceCache, Raise TypeError)
          else (serviceCache, Ok notSeenBefore)
      | IsUndefined => (serviceCache, Raise TypeError)
      end
  end.

(** [serviceAddressFilter]: the admitted addresses, or the error raised, and
    the cache left behind.  When [notSeenBefore] is not empty the name looks
    up to an object, so [Object.keys] is applied to an object. *)
Definition serviceAddressFilter (s : service) (serviceCache : cache)
    : outcome (list string) * cache :=
  match addresses s, name s with
  | Some addrs, Some serviceName =>
      if truthy_string serviceName then
        match fold_left (noteAddress serviceName) addrs (serviceCache, Ok []) with
        | (serviceCache, Raise e) => (Raise e, serviceCache)
        | (serviceCache, Ok notSeenBefore) =>
            match notSeenBefore with
            | [] => (Ok [], serviceCache)
            | first :: rest =>
                match resolve serviceCache serviceName with
                | IsObject r =>
                    if serviceIsLocal (Some (keys (ownProperties serviceCache r)))
                    then (Ok [LOCAL_ADDR], serviceCache)
                    else match rest with
                         | [] => (Ok [first], serviceCache)
                         | _ => (Ok (rankAddresses notSeenBefore), serviceCache)
                         end
                | _ => (Raise TypeError, serviceCache)
                end
            end
        end
      else (Ok [], serviceCache)
  | _, _ => (Ok [], serviceCache)
  end.

End Pipeline.

(** ** Service queries *)

(** [query.rawQuery] *)
Record rawQuery_t : Type := {
  q_type : string;
  q_port : option Z;
  q_properties : option (jsobj string)
}.

(** A [ServiceQuery] object as [serviceQueryFilter] reads it.  The regular
    expression is taken by what [nameRegEx.test] answers.  [ServiceQuery.js]
    is not part of the sources; [query_properties] is the property
    [query.properties] of the object itself, which line 368 reads, as opposed
    to [query.rawQuery.properties], which line 351 reads. *)
Record ServiceQuery : Type := {
  nameRegEx : option (string -> bool);
  rawQuery : rawQuery_t;
  query_properties : option (jsobj string)
}.

(** [if (p)] on a number. *)
Definition truthy_port (p : option Z) : bool :=
  match p with
  | Some n => negb (n =? 0)%Z
  | None => false
  end.

Definition nameMatches (query : ServiceQuery) (serviceRecord : service) : bool :=
  match nameRegEx query, name serviceRecord with
  | Some re, Some n => truthy_string n && re n
  | _, _ => false
  end.

Definition portMatches (query : ServiceQuery) (serviceRecord : service) : bool :=
  match q_port (rawQuery query), port serviceRecord with
  | Some qp, Some rp =>
      negb (qp =? 0)%Z && negb (rp =? 0)%Z && (qp =? rp)%Z
  | _, _ => false
  end.

Definition propertyMatches (qprops rprops : jsobj string) (property : string) : bool :=
  match get rprops property with
  | Some v =>
      truthy_string v
      && match get qprops property with
         | Some qv => String.eqb v qv
         | None => false
         end
  | None => false
  end.

Definition propertiesMatch (query : ServiceQuery) (serviceRecord : service) : bool :=
  match q_properties (rawQuery query), properties serviceRecord with
  | Some qprops, Some rprops =>
      existsb (propertyMatches qprops rprops) (keys qprops)
  | _, _ => false
  end.

(** [serviceQueryFilter] *)
Definition serviceQueryFilter (query : ServiceQuery) (serviceRecord : service) : bool :=
  if nameMatches query serviceRecord then true
  else if portMatches query serviceRecord then true
  else if propertiesMatch query serviceRecord then true
  else if negb (bool_decide (is_Some (nameRegEx query)))
          && negb (truthy_port (q_port (rawQuery query)))
          && negb (bool_decide (is_Some (query_properties query)))
  then true
  else false.

(** The fields of a query that lines 335-365 test. *)
Definition nameSpecified (query : ServiceQuery) : bool :=
  bool_decide (is_Some (nameRegEx query)).

Definition portSpecified (query : ServiceQuery) : bool :=
  truthy_port (q_port (rawQuery query)).

Definition propertiesSpecified (query : ServiceQuery) : bool :=
  bool_decide (is_Some (q_properties (rawQuery query))).

(** ** Records handed to the application *)

(** Modelled from the spec: [ServiceRecord.js] is not part of the sources.
    A [ServiceRecord] wraps the raw record and carries the derived
    [suggestedAddresses] and [suggestedAddress]. *)
Record ServiceRecord : Type := {
  rawRecord : service;
  suggestedAddresses : list string;
  suggestedAddress : option string
}.

(** Modelled from the spec: the condensed service descriptor, with name,
    type, port, address and property mapping. *)
Record ServiceSpec : Type := {
  spec_name : option string;
  spec_type : string;
  spec_port : option Z;
  spec_address : option string;
  spec_properties : option (jsobj string)
}.

(** Modelled from the spec: [ServiceRecord.getSuggestedServiceSpec], the
    descriptor of a record at its suggested address. *)
Definition getSuggestedServiceSpec (r : ServiceRecord) : ServiceSpec :=
  {| spec_name := name (rawRecord r);
     spec_type := type (rawRecord r);
     spec_port := port (rawRecord r);
     spec_address := suggestedAddress r;
     spec_properties := properties (rawRecord r) |}.

(** ** Application-supplied functions *)

(** What [userServiceFilter(serviceRecord)] does: it returns a value, of
    which only the truthiness is read, or it raises. *)
Inductive filter_outcome : Type :=
| FilterReturned (truthy : bool)
| FilterRaised (e : js_error).

(** What [callback(serviceSpec)] does. *)
Inductive callback_outcome : Type :=
| Returned
| Raised (e : js_error).

Definition userServiceFilter_t : Type := ServiceRecord -> filter_outcome.
Definition callback_t : Type := ServiceSpec -> callback_outcome.

(** The calls a handler makes to the application, in order. *)
Inductive app_call : Type :=
| CallUserFilter (r : ServiceRecord)
| CallCallback (s : ServiceSpec).

(** How a handler ends: it returns, or an error leaves it. *)
Inductive completion : Type :=
| Normal
| Thrown (e : js_error).

Record handler_result : Type := {
  hr_cache : cache;
  hr_calls : list app_call;
  hr_completion : completion
}.

Section Discovery.

Variable myaddresses : list string.

(** The [try { callback(...) } catch (err) { return; }] of the [serviceUp]
    handler. *)
Definition invokeCallback (callback : callback_t) (serviceSpec : ServiceSpec)
    : completion :=
  match callback serviceSpec with
  | Returned => Normal
  | Raised _ => Normal
  end.

(** The [serviceUp] handler installed by [discoverServices].  An error
    raised by [serviceAddressFilter] leaves the handler. *)
Definition serviceUp (serviceQuery : ServiceQuery)
    (userServiceFilter : option userServiceFilter_t) (callback : callback_t)
    (s : service) (serviceCache : cache) : handler_result :=
  if negb (serviceQueryFilter serviceQuery s)
  then {| hr_cache := serviceCache; hr_calls := []; hr_completion := Normal |}
  else
    match serviceAddressFilter myaddresses s serviceCache with
    | (Raise e, serviceCache) =>
        {| hr_cache := serviceCache; hr_calls := []; hr_completion := Thrown e |}
    | (Ok filteredServiceAddresses, serviceCache) =>
        if (length filteredServiceAddresses =? 0)%nat
        then {| hr_cache := serviceCache; hr_calls := []; hr_completion := Normal |}
        else
          let serviceRecord :=
            {| rawRecord := s;
               suggestedAddresses := filteredServiceAddresses;
               suggestedAddress := head filteredServiceAddresses |} in
          let serviceSpec := getSuggestedServiceSpec serviceRecord in
          match userServiceFilter with
          | None =>
              {| hr_cache := serviceCache;
                 hr_calls := [CallCallback serviceSpec];
                 hr_completion := invokeCallback callback serviceSpec |}
          | Some f =>
              match f serviceRecord with
              | FilterRaised e =>
                  {| hr_cache := serviceCache;
                     hr_calls := [CallUserFilter serviceRecord];
                     hr_completion := Thrown e |}
              | FilterReturned false =>
                  {| hr_cache := serviceCache;
                     hr_calls := [CallUserFilter serviceRecord];
                     hr_completion := Normal |}
              | FilterReturned true =>
                  {| hr_cache := serviceCache;
                     hr_calls := [CallUserFilter serviceRecord; CallCallback serviceSpec];
                     hr_completion := invokeCallback callback serviceSpec |}
              end
          end
    end.

(** [removeServiceFromCache], the [serviceDown] handler: [delete] removes an
    own property of the cache object and nothing else. *)
Definition removeServiceFromCache (s : service) (serviceCache : cache) : cache :=
  if negb (truthy_opt_string (name s)) then serviceCache
  else match name s with
       | Some serviceName =>
           {| own := delete serviceName (own serviceCache);
              protoFlags := protoFlags serviceCache;
              fnFlags := fnFlags serviceCache |}
       | None => serviceCache
       end.

(** Events of the mDNS browser. *)
Inductive browser_event : Type :=
| ServiceUpEvent (s : service)
| ServiceDownEvent (s : service)
| ServiceChangedEvent (s : service).

(** [exports.browser] once [discoverServices] has created it: the type it
    browses and the handlers' closure. *)
Record browser_t : Type := {
  b_type : string;
  b_query : ServiceQuery;
  b_filter : option userServiceFilter_t;
  b_callback : callback_t;
  b_started : bool
}.

Definition handleEvent (b : browser_t) (ev : browser_event) (serviceCache : cache)
    : handler_result :=
  match ev with
  | ServiceUpEvent s =>
      serviceUp (b_query b) (b_filter b) (b_callback b) s serviceCache
  | ServiceDownEvent s =>
      {| hr_cache := removeServiceFromCache s serviceCache;
         hr_calls := []; hr_completion := Normal |}
  | ServiceChangedEvent _ =>
      {| hr_cache := serviceCache; hr_calls := []; hr_completion := Normal |}
  end.

(** The browser delivers its events one at a time; an error that leaves a
    handler ends the delivery. *)
Fixpoint handleEvents (b : browser_t) (evs : list browser_event)
    (serviceCache : cache) : handler_result :=
  match evs with
  | [] => {| hr_cache := serviceCache; hr_calls := []; hr_completion := Normal |}
  | ev :: evs' =>
      let r := handleEvent b ev serviceCache in
      match hr_completion r with
      | Thrown _ => r
      | Normal =>
          let r' := handleEvents b evs' (hr_cache r) in
          {| hr_cache := hr_cache r';
             hr_calls := (hr_calls r ++ hr_calls r')%list;
             hr_completion := hr_completion r' |}
      end
  end.

(** The module state: [exports.serviceCache] and [exports.browser]. *)
Record mdns_state : Type := {
  serviceCache_ : cache;
  browser_ : option browser_t
}.





(** [stopDiscovering]: [exports.serviceCache = {}] puts a new, empty object
    in place of the cache object. *)
Definition stopDiscovering (st : mdns_state) : mdns_state :=
  match browser_ st with
  | Some _ =>
      {| serviceCache_ := {| own := ∅;
                             protoFlags := protoFlags (serviceCache_ st);
                             fnFlags := fnFlags (serviceCache_ st) |};
         browser_ := None |}
  | None => st
  end.

End Discovery.

(** ** Local addresses and advertising *)

(** An entry of [os.networkInterfaces()]: the fields [setMyAddresses]
    reads. *)
Record interface_address : Type := {
  ia_address : string;
  ia_family : string;
  ia_internal : bool
}.

(** The inner loop of [setMyAddresses]: the addresses of one interface. *)
Definition pushAddresses (myaddresses : list string)
    (entries : list interface_address) : list string :=
  fold_left (fun acc address =>
               if String.eqb (ia_family address) "IPv4" && negb (ia_internal address)
               then (acc ++ [ia_address address])%list
               else acc)
            entries myaddresses.

(** [setMyAddresses]: [ifs] maps an interface name to the array of its
    addresses; the loop visits the names as [for (var i in ifs)] lists them
    and pushes onto [exports.myaddresses]. *)
Definition setMyAddresses (ifs : jsobj (list interface_address))
    (myaddresses : list string) : list string :=
  fold_left (fun acc i => pushAddresses acc (default [] (get ifs i)))
            (keys ifs) myaddresses.

(** The [networkInterface] option of an advertisement:
    [mdns.loopbackInterface()] or an address. *)
Inductive network_interface : Type :=
| LoopbackInterface
| InterfaceAddress (address : string).

(** The arguments of [mdns.createAdvertisement]: the type, the port and the
    options [{txtRecord, name, networkInterface}], the last one optional. *)
Record advertisement : Type := {
  ad_type : string;
  ad_port : option Z;
  ad_txtRecord : option (jsobj string);
  ad_name : option string;
  ad_networkInterface : option network_interface
}.

(** [advertiseService], from [serviceRecord.rawRecord] on: the advertisement
    that is created and started. *)
Definition advertiseService (rawRecord : ServiceSpec) : advertisement :=
  let options (networkInterface : option network_interface) :=
    {| ad_type := spec_type rawRecord; ad_port := spec_port rawRecord;
       ad_txtRecord := spec_properties rawRecord; ad_name := spec_name rawRecord;
       ad_networkInterface := networkInterface |} in
  match spec_address rawRecord with
  | Some a =>
      if truthy_string a then
        options (Some (if String.eqb a LOCAL_ADDR then LoopbackInterface
                       else InterfaceAddress a))
      else options None
  | None => options None
  end.

(** ** Derived notions used in the statements *)

(** The own entry of a name in the cache object, an absent one read as
    [{}]. *)
Definition entryOf (serviceCache : cache) (serviceName : string) : jsobj bool :=
  default ([] : jsobj bool) (own serviceCache !! serviceName).

(** What the test of line 302 finds for an address under a name: the flag
    on the object the name looks up to, or up its chain; for a name that
    looks up to [undefined], the flag the fresh entry inherits. *)
Definition seen (c : cache) (serviceName address : string) : bool :=
  match resolve c serviceName with
  | IsObject r => readFlag c r address
  | _ => flag_set (protoFlags c) address
  end.

(** [Object.keys(exports.serviceCache[serviceName])] when the name looks up
    to an object: the addresses cached for the name. *)
Definition cachedKeys (c : cache) (serviceName : string) : list string :=
  match resolve c serviceName with
  | IsObject r => keys (ownProperties c r)
  | _ => []
  end.

(** The list a call has returned; none when it has raised. *)
Definition admittedList (o : outcome (list string)) : list string :=
  match o with
  | Ok l => l
  | Raise _ => []
  end.

(** The record handed to the user filter for a raw record and the cache the
    event met. *)
Definition admittedRecord myaddresses (s : service) (c : cache) : ServiceRecord :=
  let admitted := admittedList (fst (serviceAddressFilter myaddresses s c)) in
  {| rawRecord := s;
     suggestedAddresses := admitted;
     suggestedAddress := head admitted |}.

(** A browser whose callback is replaced. *)
Definition withCallback (b : browser_t) (callback : callback_t) : browser_t :=
  {| b_type := b_type b; b_query := b_query b; b_filter := b_filter b;
     b_callback := callback; b_started := b_started b |}.

(** [resultStore[n][a]] is set. *)
Definition stored (resultStore : gmap nat (jsobj bool)) (n : nat) (a : string) : Prop :=
  exists o, resultStore !! n = Some o /\ In a (map fst o).

(** Every group of a result store has an address, none twice. *)
Definition store_wf (resultStore : gmap nat (jsobj bool)) : Prop :=
  forall n o, resultStore !! n = Some o -> o <> [] /\ List.NoDup (map fst o).

(** [a] is a candidate whose longest match with a local address is longest
    among all candidates. *)
Definition longestMatch (myaddresses candidates : list string) (a : string) : Prop :=
  In a candidates
  /\ exists m, In m myaddresses
     /\ forall a' m', In a' candidates -> In m' myaddresses ->
          (getMatchingPrefixLen a' m' <= getMatchingPrefixLen a m)%nat.

(** The order of the default sort, as a relation. *)
Definition string_le (x y : string) : Prop := String.leb x y = true.

(** The truthiness of [o[address]] for an object with own properties [o]
    that inherits [inh]. *)
Definition readVia (inh : string -> bool) (o : jsobj bool) (address : string) : bool :=
  match get o address with
  | Some b => b
  | None => inh address
  end.

(** The loop of an object: what the [forEach] of [serviceAddressFilter]
    does to the own properties [o] of the object the name looks up to, [inh]
    being what the object inherits. *)
Definition objNote (inh : string -> bool) (st : jsobj bool * list string)
    (address : string) : jsobj bool * list string :=
  let '(o, notSeenBefore) := st in
  if negb (readVia inh o address)
  then (set o address true, (notSeenBefore ++ [address])%list)
  else (o, notSeenBefore).

(** [c'] differs from [c] on the object [r] at most. *)
Definition frame (c c' : cache) (r : objref) : Prop :=
  match r with
  | RefEntry nm =>
      protoFlags c' = protoFlags c /\ fnFlags c' = fnFlags c
      /\ forall nm', nm' <> nm -> own c' !! nm' = own c !! nm'
  | RefObjectPrototype => own c' = own c /\ fnFlags c' = fnFlags c
  | RefFunction f =>
      own c' = own c /\ protoFlags c' = protoFlags c
      /\ forall f', f' <> f -> fnFlags c' !! f' = fnFlags c !! f'
  end.

(** What the [forEach] of [serviceAddressFilter] has done when it turns the
    cache [c] into [c'] and finds the addresses [new] among [addrs]. *)
Definition noted (nm : string) (addrs : list string) (c c' : cache)
    (new : list string) : Prop :=
  (forall x, In x new <-> In x addrs /\ seen c nm x = false)
  /\ (forall x, seen c' nm x = true <-> seen c nm x = true \/ In x addrs)
  /\ (forall x, In x (cachedKeys c' nm) <-> In x (cachedKeys c nm) \/ In x new)
  /\ (addrs <> [] -> exists r, resolve c' nm = IsObject r)
  /\ resolve c' nm <> IsPrimitive
  /\ List.NoDup new.

(** The list [serviceAddressFilter] returns once [notSeenBefore] is known
    and the name looks up to an object with the keys [cached]. *)
Definition admitted myaddresses (cached new : list string) : list string :=
  match new with
  | [] => []
  | first :: rest =>
      if serviceIsLocal myaddresses (Some cached) then [LOCAL_ADDR]
      else match rest with
           | [] => [first]
           | _ => rankAddresses myaddresses new
           end
  end.

(** A cache that holds the own entries [entries] and nothing else. *)
Definition cacheOf (entries : gmap string (jsobj bool)) : cache :=
  {| own := entries; protoFlags := []; fnFlags := ∅ |}.

(** A name that the cache object does not inherit: when the cache has no
    own entry for it, it looks up to [undefined]. *)
Definition plainName (c : cache) (serviceName : string) : Prop :=
  serviceName <> "__proto__"
  /\ existsb (String.eqb serviceName) objectPrototypeFunctions = false
  /\ get (protoFlags c) serviceName = None.

(** ** Sample queries, records and browsers *)

(** A query built from [{type, properties: {role: "sensor"}}]: the object
    has [rawQuery] and no [properties] of its own. *)
Definition sensorRoleQuery : ServiceQuery :=
  {| nameRegEx := None;
     rawQuery := {| q_type := "_zmq._tcp"; q_port := None;
                    q_properties := Some [("role", "sensor")] |};
     query_properties := None |}.

Definition actuatorRecord : service :=
  {| name := Some "valve"; type := "_zmq._tcp"; port := Some 9090%Z;
     addresses := Some ["10.0.0.5"];
     properties := Some [("role", "actuator")] |}.

(** A query built from [{type, port: p}]. *)
Definition portQuery (p : Z) : ServiceQuery :=
  {| nameRegEx := None;
     rawQuery := {| q_type := "_zmq._tcp"; q_port := Some p; q_properties := None |};
     query_properties := None |}.

(** A consumer whose callback always raises. *)
Definition failingCallback : callback_t :=
  fun _ => Raised (Error "consumer failed").

Definition failingBrowser : browser_t :=
  {| b_type := "_zmq._tcp"; b_query := portQuery 9090;
     b_filter := Some (fun _ => FilterReturned true);
     b_callback := failingCallback; b_started := true |}.

(** A record as the engine delivers it for a service of the given name at
    the given addresses. *)
Definition serviceNamed (n : string) (addrs : list string) : service :=
  {| name := Some n; type := "_zmq._tcp"; port := Some 8080%Z;
     addresses := Some addrs; properties := None |}.



(** * Properties *)

(** ** Dictionaries *)

Section JsObjFacts.
Context {V : Type}.
Implicit Types (o : jsobj V) (k : string) (v : V).

Lemma get_set_eq o k v : get (set o k v) k = Some v.
Proof.
  induction o as [|[k' v'] o IH]; simpl.
  - now rewrite String.eqb_refl.
  - destruct (String.eqb k' k) eqn:E; simpl; now rewrite E.
Qed.

Lemma get_set_ne o k k' v : k <> k' -> get (set o k v) k' = get o k'.
Proof.
  intros Hne. induction o as [|[k0 v0] o IH]; simpl.
  - apply String.eqb_neq in Hne. now rewrite Hne.
  - destruct (String.eqb k0 k) eqn:E; simpl.
    + apply String.eqb_eq in E. subst k0.
      apply String.eqb_neq in Hne. now rewrite Hne.
    + now rewrite IH.
Qed.

Lemma in_fst_set o k v x :
  In x (map fst (set o k v)) <-> In x (map fst o) \/ x = k.
Proof.
  induction o as [|[k0 v0] o IH]; simpl.
  - intuition.
  - destruct (String.eqb k0 k) eqn:E; simpl.
    + apply String.eqb_eq in E. subst k0. intuition.
    + rewrite IH. intuition.
Qed.

Lemma in_sort_index x l : In x (sort_index l) <-> In x l.
Proof.
  assert (Hins : forall y l', In x (insert_index y l') <-> y = x \/ In x l').
  { intros y l'. induction l' as [|z l' IH]; simpl.
    - reflexivity.
    - destruct (fst y <=? fst z)%N; simpl; rewrite ?IH; intuition. }
  induction l as [|y l IH]; simpl.
  - reflexivity.
  - rewrite Hins, IH. reflexivity.
Qed.

(** [Object.keys] lists exactly the own property names. *)
Lemma in_keys o k : In k (keys o) <-> In k (map fst o).
Proof.
  unfold keys. rewrite in_app_iff, !in_map_iff. split.
  - intros [[[n k'] [Hk Hin]] | Hin].
    + simpl in Hk. subst k'. apply (proj1 (in_sort_index _ _)) in Hin.
      unfold index_keys in Hin. apply in_flat_map in Hin.
      destruct Hin as [kv [Hkv Hx]].
      destruct (array_index (fst kv)); simpl in Hx; [|tauto].
      destruct Hx as [Hx|[]]. inversion Hx; subst. eauto.
    + unfold string_keys in Hin. apply in_flat_map in Hin.
      destruct Hin as [kv [Hkv Hx]].
      destruct (array_index (fst kv)); simpl in Hx; [tauto|].
      destruct Hx as [Hx|[]]. eauto.
  - intros [kv [Hk Hin]]. subst k.
    destruct (array_index (fst kv)) as [n|] eqn:E.
    + left. exists (n, fst kv). split; [reflexivity|].
      apply in_sort_index. unfold index_keys. apply in_flat_map.
      exists kv. split; [assumption|]. rewrite E. now left.
    + right. unfold string_keys. apply in_flat_map.
      exists kv. split; [assumption|]. rewrite E. now left.
Qed.

Lemma get_Some_in_fst o k v : get o k = Some v -> In k (map fst o).
Proof.
  induction o as [|[k0 v0] o IH]; simpl; [discriminate|].
  destruct (String.eqb k0 k) eqn:E.
  - apply String.eqb_eq in E. now left.
  - intros H. right. now apply IH.
Qed.

End JsObjFacts.

(** ** Prefix lengths *)

Lemma string_app_cons (c : ascii) (p s : string) :
  String c p ++ s = String c (p ++ s).
Proof. reflexivity. Qed.

Lemma string_length_app (p s : string) :
  String.length (p ++ s) = (String.length p + String.length s)%nat.
Proof.
  induction p as [|c p IH]; [reflexivity|].
  rewrite string_app_cons. simpl. f_equal. exact IH.
Qed.

Lemma string_get_app (p s : string) :
  String.get (String.length p) (p ++ s) = String.get 0 s.
Proof.
  induction p as [|c p IH]; [reflexivity|].
  rewrite string_app_cons. simpl. exact IH.
Qed.

Lemma string_app_snoc (p : string) (c : ascii) (s : string) :
  p ++ String c s = (p ++ String c "") ++ s.
Proof.
  induction p as [|d p IH]; [reflexivity|].
  rewrite !string_app_cons. f_equal. exact IH.
Qed.

Lemma prefix_loop_from fuel : forall p q a b,
  String.length p = String.length q ->
  (String.length a <= fuel)%nat ->
  prefix_loop fuel (p ++ a) (q ++ b) (String.length p)
  = (String.length p + common_prefix_len a b)%nat.
Proof.
  induction fuel as [|fuel IH]; intros p q a b Hpq Hfuel.
  - destruct a; simpl in Hfuel; [simpl; lia | lia].
  - simpl prefix_loop.
    rewrite (string_get_app p a).
    replace (String.get (String.length p) (q ++ b)) with (String.get 0 b)
      by (rewrite Hpq; symmetry; apply string_get_app).
    rewrite !string_length_app.
    destruct a as [|c1 a].
    + replace (String.length p <? String.length p + String.length "")%nat
        with false by (symmetry; apply Nat.ltb_ge; simpl; lia).
      simpl. lia.
    + destruct b as [|c2 b].
      * replace (String.length p <? String.length q + String.length "")%nat
          with false by (symmetry; apply Nat.ltb_ge; simpl; lia).
        rewrite andb_false_r. simpl. lia.
      * replace (String.length p <? String.length p + String.length (String c1 a))%nat
          with true by (symmetry; apply Nat.ltb_lt; simpl; lia).
        replace (String.length p <? String.length q + String.length (String c2 b))%nat
          with true by (symmetry; apply Nat.ltb_lt; simpl; lia).
        simpl. destruct (Ascii.eqb c1 c2) eqn:E; [|lia].
        rewrite (string_app_snoc p c1 a), (string_app_snoc q c2 b).
        replace (S (String.length p)) with (String.length (p ++ String c1 ""))
          by (rewrite string_length_app; simpl; lia).
        rewrite IH.
        -- rewrite string_length_app. simpl. lia.
        -- rewrite !string_length_app. simpl. lia.
        -- simpl in Hfuel. lia.
Qed.

(** [common_prefix_len] is the length of the longest string that starts both
    arguments: past it, one of them ends or the next characters differ. *)
Lemma common_prefix_len_spec (a b : string) :
  exists p a' b',
    a = p ++ a' /\ b = p ++ b'
    /\ String.length p = common_prefix_len a b
    /\ match a', b' with
       | String c1 _, String c2 _ => c1 <> c2
       | _, _ => True
       end.
Proof.
  revert b. induction a as [|c1 a IH]; intros b.
  - exists "", "", b. repeat split.
  - destruct b as [|c2 b].
    + exists "", (String c1 a), "". repeat split.
    + cbn [common_prefix_len]. destruct (Ascii.eqb_spec c1 c2) as [->|Hne].
      * destruct (IH b) as (p & a' & b' & Ha & Hb & Hlen & Hnext).
        exists (String c2 p), a', b'. rewrite !string_app_cons.
        repeat split; [now f_equal | now f_equal | simpl; now f_equal | assumption].
      * exists "", (String c1 a), (String c2 b). repeat split. assumption.
Qed.

(** The loop of the source counts the leading characters the two strings
    share. *)
Lemma getMatchingPrefixLen_common (a b : string) :
  getMatchingPrefixLen a b = common_prefix_len a b.
Proof.
  unfold getMatchingPrefixLen.
  exact (prefix_loop_from (String.length a) "" "" a b eq_refl (le_n _)).
Qed.

(** ** The service cache *)

Lemma readVia_set inh (o : jsobj bool) a x :
  readVia inh (set o a true) x = true <-> x = a \/ readVia inh o x = true.
Proof.
  unfold readVia. destruct (String.eqb_spec a x) as [->|Hne].
  - rewrite get_set_eq. intuition.
  - rewrite get_set_ne by assumption. intuition congruence.
Qed.

(** The loop of an object adds the addresses it does not find, once each. *)
Lemma objNote_spec inh addrs : forall (o : jsobj bool) nsb,
  exists o' new,
    fold_left (objNote inh) addrs (o, nsb) = (o', (nsb ++ new)%list)
    /\ (forall x, In x new <-> In x addrs /\ readVia inh o x = false)
    /\ (forall x, readVia inh o' x = true <-> readVia inh o x = true \/ In x addrs)
    /\ (forall x, In x (map fst o') <-> In x (map fst o) \/ In x new)
    /\ List.NoDup new
    /\ (new = [] -> o' = o).
Proof.
  induction addrs as [|a addrs IH]; intros o nsb.
  - exists o, []. rewrite app_nil_r. simpl. intuition. constructor.
  - cbn [fold_left]. unfold objNote at 2.
    destruct (readVia inh o a) eqn:F; cbn [negb].
    + destruct (IH o nsb) as (o' & new & Hfold & Hnew & Hflag & Hkeys & Hnd & Hsame).
      exists o', new. split; [assumption|].
      split; [|split; [|split; [|split]]]; try assumption.
      * intros x. rewrite Hnew. simpl. split; [intuition|].
        intros [[->|Hx] Hf]; [congruence|auto].
      * intros x. rewrite Hflag. simpl. split; [intuition|].
        intros [Hx|[->|Hx]]; auto.
    + destruct (IH (set o a true) (nsb ++ [a])%list)
        as (o' & new & Hfold & Hnew & Hflag & Hkeys & Hnd & Hsame).
      exists o', (a :: new). rewrite Hfold, <- app_assoc. simpl.
      split; [reflexivity|]. split; [|split; [|split; [|split]]].
      * intros x. rewrite Hnew. split.
        -- intros [<-|[Hx Hf]]; [auto|].
           split; [auto|]. destruct (readVia inh o x) eqn:Fx; [|reflexivity].
           rewrite <- Hf. symmetry. apply readVia_set. auto.
        -- intros [[->|Hx] Hf]; [auto|].
           destruct (String.eqb_spec a x) as [->|Hne]; [auto|].
           right. split; [assumption|].
           destruct (readVia inh (set o a true) x) eqn:Fx; [|reflexivity].
           apply readVia_set in Fx. destruct Fx; congruence.
      * intros x. rewrite Hflag, readVia_set. intuition.
      * intros x. rewrite Hkeys, in_fst_set. intuition.
      * constructor; [|assumption].
        intros Hin. apply Hnew in Hin. destruct Hin as [_ Hf].
        assert (Ht : readVia inh (set o a true) a = true)
          by (apply readVia_set; auto).
        congruence.
      * discriminate.
Qed.

(** *** Looking a name up *)

Lemma resolve_object_inv (c : cache) nm r :
  resolve c nm = IsObject r ->
  (r = RefEntry nm /\ is_Some (own c !! nm))
  \/ (r = RefObjectPrototype /\ own c !! nm = None /\ nm = "__proto__")
  \/ (r = RefFunction nm /\ own c !! nm = None /\ nm <> "__proto__"
      /\ existsb (String.eqb nm) objectPrototypeFunctions = true).
Proof.
  unfold resolve. destruct (own c !! nm) as [o|] eqn:Ho.
  - intros [= <-]. left. eauto.
  - destruct (String.eqb_spec nm "__proto__") as [->|Hne].
    + intros [= <-]. right. left. auto.
    + destruct (existsb (String.eqb nm) objectPrototypeFunctions) eqn:Hf.
      * intros [= <-]. right. right. auto.
      * destruct (get (protoFlags c) nm); discriminate.
Qed.

Lemma resolve_setOwnProperties (c : cache) nm r o :
  resolve c nm = IsObject r ->
  resolve (setOwnProperties c r o) nm = IsObject r.
Proof.
  intros H. destruct (resolve_object_inv c nm r H)
    as [[-> _]|[(-> & Ho & ->)|(-> & Ho & Hne & Hf)]];
    unfold resolve, setOwnProperties; cbn [own protoFlags fnFlags].
  - now rewrite lookup_insert_eq.
  - now rewrite Ho.
  - rewrite Ho. apply String.eqb_neq in Hne. now rewrite Hne, Hf.
Qed.

Lemma resolve_created (c : cache) nm o :
  resolve (setOwnProperties c (RefEntry nm) o) nm = IsObject (RefEntry nm).
Proof.
  unfold resolve, setOwnProperties. cbn [own]. now rewrite lookup_insert_eq.
Qed.

Lemma ownProperties_setOwnProperties (c : cache) r o :
  ownProperties (setOwnProperties c r o) r = o.
Proof. destruct r; cbn; [|reflexivity|]; now rewrite lookup_insert_eq. Qed.

Lemma inheritedFlag_setOwnProperties (c : cache) nm r o a :
  resolve c nm = IsObject r ->
  inheritedFlag (setOwnProperties c r o) r a = inheritedFlag c r a.
Proof. intros _. destruct r; reflexivity. Qed.

Lemma frame_refl (c : cache) r : frame c c r.
Proof. destruct r; cbn; auto. Qed.

Lemma frame_setOwnProperties (c : cache) r o : frame c (setOwnProperties c r o) r.
Proof.
  destruct r as [nm| |f]; cbn; repeat split.
  - intros nm' Hne. now apply lookup_insert_ne.
  - intros f' Hne. now apply lookup_insert_ne.
Qed.

Lemma frame_trans (c1 c2 c3 : cache) r :
  frame c1 c2 r -> frame c2 c3 r -> frame c1 c3 r.
Proof.
  destruct r as [nm| |f]; cbn.
  - intros (H1 & H2 & H3) (H1' & H2' & H3'). repeat split; try congruence.
    intros nm' Hne. now rewrite H3', H3.
  - intros (H1 & H2) (H1' & H2'). split; congruence.
  - intros (H1 & H2 & H3) (H1' & H2' & H3'). repeat split; try congruence.
    intros f' Hne. now rewrite H3', H3.
Qed.

(** *** One address *)

Lemma noteAddress_object nm (c : cache) r nsb a :
  resolve c nm = IsObject r ->
  noteAddress nm (c, Ok nsb) a
  = if readFlag c r a then (c, Ok nsb)
    else (setOwnProperties c r (set (ownProperties c r) a true),
          Ok (nsb ++ [a])%list).
Proof.
  intros H. unfold noteAddress. rewrite H. cbv zeta. rewrite H.
  now destruct (readFlag c r a).
Qed.

Lemma noteAddress_primitive nm (c : cache) nsb a :
  resolve c nm = IsPrimitive ->
  noteAddress nm (c, Ok nsb) a
  = if flag_set (protoFlags c) a then (c, Ok nsb) else (c, Raise TypeError).
Proof.
  intros H. unfold noteAddress. rewrite H. cbv zeta. rewrite H.
  now destruct (flag_set (protoFlags c) a).
Qed.

Lemma noteAddress_undefined nm (c : cache) nsb a :
  resolve c nm = IsUndefined ->
  noteAddress nm (c, Ok nsb) a
  = noteAddress nm (setOwnProperties c (RefEntry nm) [], Ok nsb) a.
Proof.
  intros H. unfold noteAddress. rewrite H. cbv zeta.
  now rewrite !resolve_created.
Qed.

Lemma noteAll_raised nm addrs (c : cache) e :
  fold_left (noteAddress nm) addrs (c, Raise e) = (c, Raise e).
Proof. induction addrs as [|a addrs IH]; [reflexivity | exact IH]. Qed.

(** *** The loop on a name that looks up to an object *)

Lemma noteAll_object nm r addrs : forall (c : cache) nsb,
  resolve c nm = IsObject r ->
  exists c' new,
    fold_left (noteAddress nm) addrs (c, Ok nsb) = (c', Ok (nsb ++ new)%list)
    /\ resolve c' nm = IsObject r
    /\ fold_left (objNote (inheritedFlag c r)) addrs (ownProperties c r, nsb)
       = (ownProperties c' r, (nsb ++ new)%list)
    /\ (forall a, inheritedFlag c' r a = inheritedFlag c r a)
    /\ frame c c' r
    /\ (new = [] -> c' = c).
Proof.
  induction addrs as [|a addrs IH]; intros c nsb Hr.
  - exists c, []. rewrite app_nil_r. cbn. repeat split; auto using frame_refl.
  - cbn [fold_left]. rewrite (noteAddress_object nm c r nsb a Hr).
    unfold objNote at 2. fold (readVia (inheritedFlag c r) (ownProperties c r) a).
    change (readVia (inheritedFlag c r) (ownProperties c r) a) with (readFlag c r a).
    destruct (readFlag c r a) eqn:F; cbn [negb].
    + exact (IH c nsb Hr).
    + set (c1 := setOwnProperties c r (set (ownProperties c r) a true)).
      assert (Hr1 : resolve c1 nm = IsObject r)
        by (now apply resolve_setOwnProperties).
      destruct (IH c1 (nsb ++ [a])%list Hr1)
        as (c' & new & Hfold & Hr' & Hobj & Hinh & Hframe & Hsame).
      rewrite <- app_assoc in Hobj. cbn [app] in Hobj.
      exists c', (a :: new). rewrite Hfold, <- app_assoc. cbn [app].
      split; [reflexivity|]. split; [assumption|]. split; [|split; [|split]].
      * rewrite <- Hobj. unfold c1. rewrite ownProperties_setOwnProperties.
        assert (Hfun : inheritedFlag
                         (setOwnProperties c r (set (ownProperties c r) a true)) r
                       = inheritedFlag c r) by (destruct r; reflexivity).
        now rewrite Hfun.
      * intros x. rewrite Hinh. unfold c1.
        now apply (inheritedFlag_setOwnProperties c nm).
      * eapply frame_trans; [apply frame_setOwnProperties | exact Hframe].
      * discriminate.
Qed.

Lemma seen_object (c : cache) nm r x :
  resolve c nm = IsObject r ->
  seen c nm x = readVia (inheritedFlag c r) (ownProperties c r) x.
Proof. intros H. unfold seen. now rewrite H. Qed.

Lemma cachedKeys_object (c : cache) nm r :
  resolve c nm = IsObject r -> cachedKeys c nm = keys (ownProperties c r).
Proof. intros H. unfold cachedKeys. now rewrite H. Qed.

Lemma noteAll_spec_object nm r addrs (c : cache) :
  resolve c nm = IsObject r ->
  exists c' new,
    fold_left (noteAddress nm) addrs (c, Ok []) = (c', Ok new)
    /\ noted nm addrs c c' new
    /\ resolve c' nm = IsObject r
    /\ frame c c' r
    /\ (new = [] -> c' = c).
Proof.
  intros Hr.
  destruct (noteAll_object nm r addrs c [] Hr)
    as (c' & new & Hfold & Hr' & Hobj & Hinh & Hframe & Hsame).
  destruct (objNote_spec (inheritedFlag c r) addrs (ownProperties c r) [])
    as (o' & new' & Hfold' & Hnew & Hflag & Hkeys & Hnd & _).
  rewrite Hobj in Hfold'. cbn [app] in Hfold'.
  injection Hfold' as Ho Hn. subst o' new'.
  exists c', new. split; [exact Hfold|]. split; [|auto].
  unfold noted. split; [|split; [|split; [|split; [|split]]]].
  - intros x. rewrite (seen_object c nm r x Hr). apply Hnew.
  - intros x. rewrite (seen_object c nm r x Hr), (seen_object c' nm r x Hr').
    rewrite <- Hflag. unfold readVia. now rewrite Hinh.
  - intros x. rewrite (cachedKeys_object c nm r Hr), (cachedKeys_object c' nm r Hr').
    rewrite !in_keys. apply Hkeys.
  - intros _. eauto.
  - rewrite Hr'. discriminate.
  - exact Hnd.
Qed.

Lemma seen_created (c : cache) nm x :
  resolve c nm = IsUndefined ->
  seen (setOwnProperties c (RefEntry nm) []) nm x = seen c nm x.
Proof.
  intros H. unfold seen. rewrite H, resolve_created.
  unfold readFlag. now rewrite ownProperties_setOwnProperties.
Qed.

Lemma cachedKeys_created (c : cache) nm :
  resolve c nm = IsUndefined ->
  cachedKeys (setOwnProperties c (RefEntry nm) []) nm = cachedKeys c nm.
Proof.
  intros H. unfold cachedKeys. rewrite H, resolve_created.
  now rewrite ownProperties_setOwnProperties.
Qed.

(** What the [forEach] of [serviceAddressFilter] does under a name that
    does not look up to a boolean: it returns, the new addresses are those
    of the record that the test of line 302 does not find, all the addresses
    of the record are found afterwards, and the new ones are the keys the
    object gains. *)
Lemma noteAll_spec nm addrs (c : cache) :
  resolve c nm <> IsPrimitive ->
  exists c' new,
    fold_left (noteAddress nm) addrs (c, Ok []) = (c', Ok new)
    /\ noted nm addrs c c' new
    /\ (forall r, resolve c nm = IsObject r -> frame c c' r)
    /\ (resolve c nm = IsUndefined -> frame c c' (RefEntry nm))
    /\ (new = [] -> addrs = [] \/ resolve c nm <> IsUndefined -> c' = c).
Proof.
  intros Hnp. destruct (resolve c nm) as [r| |] eqn:Hr; [|congruence|].
  - destruct (noteAll_spec_object nm r addrs c Hr)
      as (c' & new & Hfold & Hnoted & _ & Hframe & Hsame).
    exists c', new. split; [exact Hfold|]. split; [exact Hnoted|].
    split; [|split].
    + intros r' [= <-]. exact Hframe.
    + discriminate.
    + intros Hn _. now apply Hsame.
  - destruct addrs as [|a addrs].
    + exists c, []. split; [reflexivity|]. split; [|split; [|split]].
      * unfold noted. split; [|split; [|split; [|split; [|split]]]].
        -- intros x. simpl. tauto.
        -- intros x. simpl. tauto.
        -- intros x. simpl. tauto.
        -- congruence.
        -- rewrite Hr. discriminate.
        -- constructor.
      * discriminate.
      * intros _. apply frame_refl.
      * reflexivity.
    + set (c1 := setOwnProperties c (RefEntry nm) []).
      assert (Hstart : fold_left (noteAddress nm) (a :: addrs) (c, Ok [])
                       = fold_left (noteAddress nm) (a :: addrs) (c1, Ok [])).
      { cbn [fold_left]. now rewrite (noteAddress_undefined nm c [] a Hr). }
      destruct (noteAll_spec_object nm (RefEntry nm) (a :: addrs) c1
                  (resolve_created c nm []))
        as (c' & new & Hfold & (Hnew & Hflag & Hkeys & Hobj & Hnp' & Hnd)
            & _ & Hframe & _).
      exists c', new. rewrite Hstart. split; [exact Hfold|].
      split; [|split; [|split]].
      * unfold noted. split; [|split; [|split; [|split; [|split]]]];
          try assumption.
        -- intros x. rewrite Hnew. unfold c1. now rewrite seen_created.
        -- intros x. rewrite Hflag. unfold c1. now rewrite seen_created.
        -- intros x. rewrite Hkeys. unfold c1. now rewrite cachedKeys_created.
      * discriminate.
      * intros _. eapply frame_trans; [|exact Hframe].
        apply frame_setOwnProperties.
      * intros _ [H|H]; [discriminate | congruence].
Qed.

(** Under a name that looks up to a boolean the loop changes nothing: it
    returns when every address is found on [Object.prototype] and raises at
    the first one that is not. *)
Lemma noteAll_primitive nm addrs : forall (c : cache) nsb,
  resolve c nm = IsPrimitive ->
  fold_left (noteAddress nm) addrs (c, Ok nsb)
  = if forallb (fun x => flag_set (protoFlags c) x) addrs
    then (c, Ok nsb) else (c, Raise TypeError).
Proof.
  induction addrs as [|a addrs IH]; intros c nsb Hr; [reflexivity|].
  cbn [fold_left forallb]. rewrite (noteAddress_primitive nm c nsb a Hr).
  destruct (flag_set (protoFlags c) a); cbn [andb].
  - now apply IH.
  - apply noteAll_raised.
Qed.

Lemma seen_primitive (c : cache) nm x :
  resolve c nm = IsPrimitive -> seen c nm x = flag_set (protoFlags c) x.
Proof. intros H. unfold seen. now rewrite H. Qed.


Lemma serviceIsLocal_true myaddresses l :
  serviceIsLocal myaddresses (Some l) = true
  <-> exists x, In x l /\ In x myaddresses.
Proof.
  unfold serviceIsLocal. destruct l as [|y l].
  - split; [discriminate | intros [x [[] _]]].
  - rewrite existsb_exists. split.
    + intros [x [Hx Hex]]. apply existsb_exists in Hex.
      destruct Hex as [m [Hm Heq]]. apply String.eqb_eq in Heq. subst m. eauto.
    + intros [x [Hx Hm]]. exists x. split; [assumption|].
      apply existsb_exists. exists x. split; [assumption|apply String.eqb_refl].
Qed.

(** *** The whole filter *)

Lemma truthy_string_false nm : truthy_string nm = false <-> nm = "".
Proof.
  unfold truthy_string. destruct (String.eqb_spec nm ""); simpl; split;
    congruence.
Qed.

(** A record is either dropped for want of a name or of addresses, or
    handled under its name. *)
Lemma service_shape (s : service) :
  (name s = None \/ name s = Some "" \/ addresses s = None)
  \/ exists nm addrs,
       name s = Some nm /\ truthy_string nm = true /\ addresses s = Some addrs.
Proof.
  destruct (name s) as [nm|] eqn:Hn; [|auto].
  destruct (truthy_string nm) eqn:Ht.
  - destruct (addresses s) as [addrs|] eqn:Ha; [|auto]. right. eauto.
  - apply truthy_string_false in Ht. subst. auto.
Qed.

Lemma serviceAddressFilter_malformed myaddresses (s : service) (c : cache) :
  name s = None \/ name s = Some "" \/ addresses s = None \/ addresses s = Some [] ->
  serviceAddressFilter myaddresses s c = (Ok [], c).
Proof.
  unfold serviceAddressFilter.
  intros [H|[H|[H|H]]]; rewrite H; try reflexivity.
  - now destruct (addresses s).
  - now destruct (addresses s).
  - destruct (name s) as [nm|]; [|reflexivity].
    now destruct (truthy_string nm).
Qed.

(** [serviceAddressFilter] on a record with a name and addresses, given what
    its [forEach] computes. *)
Lemma serviceAddressFilter_named myaddresses s nm addrs (c c' : cache) nsb :
  name s = Some nm -> truthy_string nm = true -> addresses s = Some addrs ->
  fold_left (noteAddress nm) addrs (c, Ok []) = (c', Ok nsb) ->
  (nsb <> [] -> exists r, resolve c' nm = IsObject r) ->
  serviceAddressFilter myaddresses s c
  = (Ok (admitted myaddresses (cachedKeys c' nm) nsb), c').
Proof.
  intros Hn Ht Ha Hfold Hobj. unfold serviceAddressFilter.
  rewrite Ha, Hn, Ht, Hfold.
  destruct nsb as [|first rest]; [reflexivity|].
  destruct Hobj as [r Hr]; [discriminate|].
  rewrite (cachedKeys_object c' nm r Hr), Hr. unfold admitted.
  destruct (serviceIsLocal myaddresses (Some (keys (ownProperties c' r))));
    [reflexivity|].
  destruct rest; reflexivity.
Qed.

Lemma serviceAddressFilter_wellformed myaddresses (s : service) (c : cache)
    nm addrs :
  name s = Some nm -> truthy_string nm = true -> addresses s = Some addrs ->
  resolve c nm <> IsPrimitive ->
  exists c' new,
    noted nm addrs c c' new
    /\ (forall r, resolve c nm = IsObject r -> frame c c' r)
    /\ (resolve c nm = IsUndefined -> frame c c' (RefEntry nm))
    /\ serviceAddressFilter myaddresses s c
       = (Ok (admitted myaddresses (cachedKeys c' nm) new), c').
Proof.
  intros Hn Ht Ha Hnp.
  destruct (noteAll_spec nm addrs c Hnp)
    as (c' & new & Hfold & Hnoted & Hframe & Hframe' & _).
  exists c', new. split; [exact Hnoted|]. split; [exact Hframe|].
  split; [exact Hframe'|].
  apply (serviceAddressFilter_named myaddresses s nm addrs c c' new Hn Ht Ha Hfold).
  intros Hne. destruct Hnoted as (Hnew & _ & _ & Hobj & _).
  apply Hobj. intros ->. destruct new as [|x new]; [congruence|].
  destruct (proj1 (Hnew x) (or_introl eq_refl)) as [[] _].
Qed.

(** Under a name that looks up to a boolean nothing is admitted and nothing
    cached: the filter returns the empty list, or raises at the first
    address that is not a flag of [Object.prototype]. *)
Lemma serviceAddressFilter_primitive myaddresses (s : service) (c : cache)
    nm addrs :
  name s = Some nm -> truthy_string nm = true -> addresses s = Some addrs ->
  resolve c nm = IsPrimitive ->
  serviceAddressFilter myaddresses s c
  = if forallb (fun x => seen c nm x) addrs then (Ok [], c)
    else (Raise TypeError, c).
Proof.
  intros Hn Ht Ha Hr. unfold serviceAddressFilter.
  rewrite Ha, Hn, Ht, (noteAll_primitive nm addrs c [] Hr).
  assert (Hsame : forallb (fun x => seen c nm x) addrs
                  = forallb (fun x => flag_set (protoFlags c) x) addrs).
  { clear Ha. induction addrs as [|a l IH]; [reflexivity|]. cbn [forallb].
    rewrite (seen_primitive c nm a Hr). f_equal. exact IH. }
  rewrite Hsame. clear Hsame.
  destruct (forallb (fun x => flag_set (protoFlags c) x) addrs); reflexivity.
Qed.

Lemma serviceAddressFilter_seen myaddresses (s : service) (c : cache) nm addrs :
  name s = Some nm -> addresses s = Some addrs ->
  (forall x, In x addrs -> seen c nm x = true) ->
  addrs = [] \/ resolve c nm <> IsUndefined ->
  serviceAddressFilter myaddresses s c = (Ok [], c).
Proof.
  intros Hn Ha Hall Hentry. destruct (truthy_string nm) eqn:Ht; cycle 1.
  { apply serviceAddressFilter_malformed. apply truthy_string_false in Ht.
    subst. auto. }
  destruct (resolve c nm) as [r| |] eqn:Hr.
  - destruct (noteAll_spec nm addrs c) as (c' & new & Hfold & Hnoted & _ & _ & Hsame);
      [rewrite Hr; discriminate|].
    destruct Hnoted as (Hnew & _).
    assert (Hnil : new = []).
    { destruct new as [|x new]; [reflexivity|].
      destruct (proj1 (Hnew x) (or_introl eq_refl)) as [Hx Hf].
      rewrite (Hall x Hx) in Hf. discriminate. }
    subst new. rewrite (Hsame eq_refl) in Hfold by (right; rewrite Hr; discriminate).
    rewrite (serviceAddressFilter_named myaddresses s nm addrs c c [] Hn Ht Ha Hfold);
      [reflexivity | congruence].
  - rewrite (serviceAddressFilter_primitive myaddresses s c nm addrs Hn Ht Ha Hr).
    replace (forallb (fun x => seen c nm x) addrs) with true; [reflexivity|].
    symmetry. apply forallb_forall. exact Hall.
  - destruct Hentry as [-> | H]; [|congruence].
    apply serviceAddressFilter_malformed. auto.
Qed.

Lemma serviceAddressFilter_again myaddresses (s : service) (c : cache) l :
  fst (serviceAddressFilter myaddresses s c) = Ok l ->
  serviceAddressFilter myaddresses s (snd (serviceAddressFilter myaddresses s c))
  = (Ok [], snd (serviceAddressFilter myaddresses s c)).
Proof.
  intros Hok.
  destruct (service_shape s) as [Hbad|(nm & addrs & Hn & Ht & Ha)].
  - rewrite (serviceAddressFilter_malformed myaddresses s c) by tauto. cbn [snd].
    apply serviceAddressFilter_malformed. tauto.
  - destruct (resolve c nm) as [r| |] eqn:Hr.
    + destruct (serviceAddressFilter_wellformed myaddresses s c nm addrs Hn Ht Ha)
        as (c' & new & (_ & Hflag & _ & Hobj & _) & _ & _ & Heq);
        [rewrite Hr; discriminate|].
      rewrite Heq. cbn [snd].
      apply (serviceAddressFilter_seen myaddresses s c' nm addrs Hn Ha).
      * intros x Hx. apply Hflag. now right.
      * destruct addrs as [|a addrs]; [now left|]. right.
        destruct Hobj as [r' Hr']; [discriminate|]. rewrite Hr'. discriminate.
    + rewrite (serviceAddressFilter_primitive myaddresses s c nm addrs Hn Ht Ha Hr)
        in *.
      destruct (forallb (fun x => seen c nm x) addrs) eqn:Hall;
        [|discriminate Hok].
      cbn [snd].
      rewrite (serviceAddressFilter_primitive myaddresses s c nm addrs Hn Ht Ha Hr).
      now rewrite Hall.
    + destruct (serviceAddressFilter_wellformed myaddresses s c nm addrs Hn Ht Ha)
        as (c' & new & (_ & Hflag & _ & Hobj & _) & _ & _ & Heq);
        [rewrite Hr; discriminate|].
      rewrite Heq. cbn [snd].
      apply (serviceAddressFilter_seen myaddresses s c' nm addrs Hn Ha).
      * intros x Hx. apply Hflag. now right.
      * destruct addrs as [|a addrs]; [now left|]. right.
        destruct Hobj as [r' Hr']; [discriminate|]. rewrite Hr'. discriminate.
Qed.

(** The filter raises only under a name that looks up to a boolean, and
    then it has changed nothing. *)
Lemma serviceAddressFilter_raised myaddresses (s : service) (c : cache) e :
  fst (serviceAddressFilter myaddresses s c) = Raise e ->
  serviceAddressFilter myaddresses s c = (Raise TypeError, c)
  /\ exists nm, name s = Some nm /\ resolve c nm = IsPrimitive.
Proof.
  intros Hraise.
  destruct (service_shape s) as [Hbad|(nm & addrs & Hn & Ht & Ha)].
  - rewrite (serviceAddressFilter_malformed myaddresses s c) in Hraise by tauto.
    discriminate.
  - destruct (resolve c nm) as [r| |] eqn:Hr.
    + destruct (serviceAddressFilter_wellformed myaddresses s c nm addrs Hn Ht Ha)
        as (c' & new & _ & _ & _ & Heq); [rewrite Hr; discriminate|].
      rewrite Heq in Hraise. discriminate.
    + rewrite (serviceAddressFilter_primitive myaddresses s c nm addrs Hn Ht Ha Hr)
        in *.
      destruct (forallb (fun x => seen c nm x) addrs); [discriminate|].
      split; [reflexivity|]. eauto.
    + destruct (serviceAddressFilter_wellformed myaddresses s c nm addrs Hn Ht Ha)
        as (c' & new & _ & _ & _ & Heq); [rewrite Hr; discriminate|].
      rewrite Heq in Hraise. discriminate.
Qed.

(** ** Ranking *)

Lemma buildResultStore_no_local candidates : buildResultStore [] candidates = ∅.
Proof.
  unfold buildResultStore. generalize (∅ : gmap nat (jsobj bool)).
  induction candidates as [|a l IH]; intros g; simpl; [reflexivity|apply IH].
Qed.

Lemma in_num_sort x l : In x (num_sort l) <-> In x l.
Proof.
  assert (Hins : forall y l', In x (num_insert y l') <-> y = x \/ In x l').
  { intros y l'. induction l' as [|z l' IH]; simpl.
    - reflexivity.
    - destruct (y <=? z)%nat; simpl; rewrite ?IH; intuition. }
  induction l as [|y l IH]; simpl; [reflexivity|].
  rewrite Hins, IH. reflexivity.
Qed.

Lemma last_in (l : list nat) d : l <> [] -> In (List.last l d) l.
Proof.
  induction l as [|x [|y l] IH]; intros Hne; [congruence | now left |].
  right. apply IH. discriminate.
Qed.

(** The group looked up on line 274 is always there. *)
Lemma longest_prefix_group_exists myaddresses candidates :
  let resultStore := buildResultStore myaddresses candidates in
  let allPrefixLengths := map fst (map_to_list resultStore) in
  allPrefixLengths <> [] ->
  is_Some (resultStore !! List.last (num_sort allPrefixLengths) O).
Proof.
  cbv zeta. intros Hne.
  set (rs := buildResultStore myaddresses candidates) in *.
  assert (Hin : In (List.last (num_sort (map fst (map_to_list rs))) O)
                   (map fst (map_to_list rs))).
  { apply in_num_sort, last_in. intros Hnil.
    destruct (map fst (map_to_list rs)) as [|k ks] eqn:E; [congruence|].
    assert (Hk : In k (num_sort (k :: ks))) by (apply in_num_sort; now left).
    rewrite Hnil in Hk. destruct Hk. }
  apply in_map_iff in Hin. destruct Hin as [[k v] [Hk Hin]]. simpl in Hk.
  rewrite <- Hk. exists v. apply elem_of_map_to_list, list_elem_of_In. exact Hin.
Qed.

(** C1 (as stated, refuted): with no local address the ranking does not
    return the candidates.  On the two candidates below it returns the empty
    list, so neither candidate is output and the result is not the sorted
    list of the candidates. *)
Lemma rank_no_local_loses_candidates :
  let candidates := ["10.0.1.9"; "10.0.0.5"] in
  candidates <> []
  /\ rankAddresses [] candidates = []
  /\ rankAddresses [] candidates <> ["10.0.0.5"; "10.0.1.9"]
  /\ ~ In "10.0.0.5" (rankAddresses [] candidates).
Proof.
  cbv zeta. rewrite (eq_refl : rankAddresses [] ["10.0.1.9"; "10.0.0.5"] = []).
  repeat split; try discriminate. intros [].
Qed.

(** C1 (amended): for every list of candidate addresses, when the set of
    local addresses is empty the ranking returns the empty list: no prefix
    length is ever stored, and the guard on an empty store returns [[]]. *)
Theorem rank_no_local_is_empty (candidates : list string) :
  rankAddresses [] candidates = []
  /\ getAddressesWithLongestPrefixMatch [] candidates = [].
Proof.
  unfold rankAddresses, getAddressesWithLongestPrefixMatch.
  rewrite buildResultStore_no_local, map_to_list_empty. split; reflexivity.
Qed.

(** C6: with local addresses ["10.0.0.1"], ranking ["10.0.0.5"; "10.0.1.9"]
    returns exactly ["10.0.0.5"], and ranking ["10.0.0.5"; "10.0.0.6"]
    returns exactly ["10.0.0.5"; "10.0.0.6"], in sorted order whatever the
    order of the candidates; [serviceAddressFilter] returns the same lists
    for a fresh service with these addresses; and the prefix length of a
    pair is the count of leading characters the two strings share (7 for
    "10.0.0.5" and for "10.0.0.6", 5 for "10.0.1.9"). *)
Theorem ranking_examples :
  rankAddresses ["10.0.0.1"] ["10.0.0.5"; "10.0.1.9"] = ["10.0.0.5"]
  /\ rankAddresses ["10.0.0.1"] ["10.0.0.5"; "10.0.0.6"] = ["10.0.0.5"; "10.0.0.6"]
  /\ rankAddresses ["10.0.0.1"] ["10.0.0.6"; "10.0.0.5"] = ["10.0.0.5"; "10.0.0.6"]
  /\ fst (serviceAddressFilter ["10.0.0.1"]
            {| name := Some "sensor"; type := "_zmq._tcp"; port := Some 8080%Z;
               addresses := Some ["10.0.0.5"; "10.0.1.9"]; properties := None |}
            freshCache) = Ok ["10.0.0.5"]
  /\ fst (serviceAddressFilter ["10.0.0.1"]
            {| name := Some "sensor"; type := "_zmq._tcp"; port := Some 8080%Z;
               addresses := Some ["10.0.0.6"; "10.0.0.5"]; properties := None |}
            freshCache) = Ok ["10.0.0.5"; "10.0.0.6"]
  /\ getMatchingPrefixLen "10.0.0.5" "10.0.0.1" = 7
  /\ getMatchingPrefixLen "10.0.1.9" "10.0.0.1" = 5
  /\ getMatchingPrefixLen "10.0.0.6" "10.0.0.1" = 7
  /\ (forall a b, getMatchingPrefixLen a b = common_prefix_len a b).
Proof.
  repeat split; try (vm_compute; reflexivity).
  apply getMatchingPrefixLen_common.
Qed.

(** ** The address admission pipeline *)










(** ** The query filter *)

(** When no tested field matches, the answer is decided by line 368 alone,
    which reads [query.properties] where the match above it read
    [query.rawQuery.properties]. *)
Lemma serviceQueryFilter_unmatched (query : ServiceQuery) (r : service) :
  nameMatches query r = false ->
  portMatches query r = false ->
  propertiesMatch query r = false ->
  serviceQueryFilter query r
  = negb (nameSpecified query) && negb (portSpecified query)
    && negb (bool_decide (is_Some (query_properties query))).
Proof.
  intros Hn Hp Hq. unfold serviceQueryFilter, nameSpecified, portSpecified.
  rewrite Hn, Hp, Hq.
  now destruct (negb _ && negb _ && negb _).
Qed.

(** C2 (the code at the failing input): the query specifies the property
    mapping only, the record matches none of the specified fields, and
    [serviceQueryFilter] answers [true]. *)
Theorem properties_only_query_accepts_unmatched :
  nameSpecified sensorRoleQuery = false
  /\ portSpecified sensorRoleQuery = false
  /\ propertiesSpecified sensorRoleQuery = true
  /\ nameMatches sensorRoleQuery actuatorRecord = false
  /\ portMatches sensorRoleQuery actuatorRecord = false
  /\ propertiesMatch sensorRoleQuery actuatorRecord = false
  /\ serviceQueryFilter sensorRoleQuery actuatorRecord = true.
Proof. repeat split; vm_compute; reflexivity. Qed.

(** ** The serviceUp handler *)

(** The outcome of the callback is not observed by the handler. *)
Lemma invokeCallback_normal (callback : callback_t) spec :
  invokeCallback callback spec = Normal.
Proof. unfold invokeCallback. now destruct (callback spec). Qed.

Lemma serviceUp_unmatched myaddresses q uf cb (s : service) (c : cache) :
  serviceQueryFilter q s = false ->
  serviceUp myaddresses q uf cb s c
  = {| hr_cache := c; hr_calls := []; hr_completion := Normal |}.
Proof. intros H. unfold serviceUp. now rewrite H. Qed.

Lemma serviceUp_matched myaddresses q uf cb (s : service) (c : cache) :
  serviceQueryFilter q s = true ->
  let admitted := serviceAddressFilter myaddresses s c in
  let record := admittedRecord myaddresses s c in
  let spec := getSuggestedServiceSpec record in
  serviceUp myaddresses q uf cb s c
  = match fst admitted with
    | Raise e =>
        {| hr_cache := snd admitted; hr_calls := []; hr_completion := Thrown e |}
    | Ok [] =>
        {| hr_cache := snd admitted; hr_calls := []; hr_completion := Normal |}
    | Ok (_ :: _) =>
        match uf with
        | None =>
            {| hr_cache := snd admitted; hr_calls := [CallCallback spec];
               hr_completion := Normal |}
        | Some f =>
            match f record with
            | FilterRaised e =>
                {| hr_cache := snd admitted; hr_calls := [CallUserFilter record];
                   hr_completion := Thrown e |}
            | FilterReturned false =>
                {| hr_cache := snd admitted; hr_calls := [CallUserFilter record];
                   hr_completion := Normal |}
            | FilterReturned true =>
                {| hr_cache := snd admitted;
                   hr_calls := [CallUserFilter record; CallCallback spec];
                   hr_completion := Normal |}
            end
        end
    end.
Proof.
  intros H. cbv zeta. unfold serviceUp, admittedRecord. rewrite H. cbn [negb].
  destruct (serviceAddressFilter myaddresses s c) as [[[|a l]|e] c'];
    cbn [fst snd admittedList]; try reflexivity.
  cbn [length Nat.eqb].
  destruct uf as [f|]; [|now rewrite invokeCallback_normal].
  destruct (f _) as [[|]|e]; try reflexivity.
  now rewrite invokeCallback_normal.
Qed.

(** C3 (as stated, refuted): the admission pipeline is not applied first.
    A record on port 9090 met by a query for port 8080 leaves the handler
    with the cache untouched, whereas the admission pipeline on that record
    admits its address and records it in the cache. *)
Lemma serviceUp_filters_query_before_admission :
  let q := portQuery 8080 in
  let s := actuatorRecord in
  fst (serviceAddressFilter [] s freshCache) = Ok ["10.0.0.5"]
  /\ hr_cache (serviceUp [] q None (fun _ => Returned) s freshCache) = freshCache
  /\ hr_cache (serviceUp [] q None (fun _ => Returned) s freshCache)
     <> snd (serviceAddressFilter [] s freshCache).
Proof.
  cbv zeta. split; [vm_compute; reflexivity|].
  rewrite serviceUp_unmatched by (vm_compute; reflexivity). cbn [hr_cache].
  split; [reflexivity|].
  intros H. apply (f_equal (fun m : cache => own m !! "valve")) in H.
  vm_compute in H. discriminate.
Qed.

(** C3 (amended): for every serviceUp event the query filter is applied
    first, to the raw record.  A record that fails it is dropped with the
    cache untouched and no call to the application.  Only for a record that
    passes it is the admission pipeline run; the user filter, when there is
    one, is called only on a record carrying a non-empty admitted list, and
    the callback only after the user filter returned a truthy value. *)
Theorem serviceUp_order myaddresses q uf cb (s : service) (c : cache) :
  let r := serviceUp myaddresses q uf cb s c in
  let admitted := serviceAddressFilter myaddresses s c in
  let record := admittedRecord myaddresses s c in
  let spec := getSuggestedServiceSpec record in
  (serviceQueryFilter q s = false -> hr_cache r = c /\ hr_calls r = [])
  /\ (serviceQueryFilter q s = true -> hr_cache r = snd admitted)
  /\ (hr_calls r <> [] ->
      serviceQueryFilter q s = true /\ admittedList (fst admitted) <> []
      /\ suggestedAddresses record = admittedList (fst admitted))
  /\ (forall call, In call (hr_calls r) ->
      call = CallUserFilter record \/ call = CallCallback spec)
  /\ (In (CallCallback spec) (hr_calls r) ->
      match uf with
      | None => hr_calls r = [CallCallback spec]
      | Some f => f record = FilterReturned true
                  /\ hr_calls r = [CallUserFilter record; CallCallback spec]
      end).
Proof.
  cbv zeta. destruct (serviceQueryFilter q s) eqn:Hq.
  - rewrite (serviceUp_matched myaddresses q uf cb s c Hq). cbv zeta.
    destruct (fst (serviceAddressFilter myaddresses s c)) as [[|a l]|e] eqn:Hadm.
    + cbn. repeat split; try discriminate; try tauto.
    + assert (Hrec : suggestedAddresses (admittedRecord myaddresses s c) = a :: l)
        by (unfold admittedRecord; cbn; now rewrite Hadm).
      destruct uf as [f|].
      * destruct (f (admittedRecord myaddresses s c)) as [[|]|e] eqn:Hf; cbn;
          repeat split; try discriminate; try assumption;
          intros; simpl in *; intuition (subst; auto; discriminate).
      * cbn. repeat split; try discriminate; try assumption;
          intros; simpl in *; intuition (subst; auto; discriminate).
    + cbn. repeat split; try discriminate; try tauto.
  - rewrite (serviceUp_unmatched myaddresses q uf cb s c Hq). cbn.
    repeat split; try discriminate; try tauto.
Qed.

(** C10: a serviceUp event whose record does not satisfy the query filter
    leaves the cache exactly as it was, and nothing is called; so no entry is
    created and no address inserted, and any later event is handled as if
    this one had never been delivered: its addresses still count as new. *)
Theorem unmatched_record_leaves_cache myaddresses q uf cb (s : service) (c : cache) :
  serviceQueryFilter q s = false ->
  let r := serviceUp myaddresses q uf cb s c in
  hr_cache r = c
  /\ hr_calls r = []
  /\ (forall nm, own (hr_cache r) !! nm = own c !! nm)
  /\ (forall s', serviceAddressFilter myaddresses s' (hr_cache r)
                 = serviceAddressFilter myaddresses s' c)
  /\ (forall q' uf' cb' s',
        serviceUp myaddresses q' uf' cb' s' (hr_cache r)
        = serviceUp myaddresses q' uf' cb' s' c).
Proof.
  intros H. cbv zeta. rewrite (serviceUp_unmatched myaddresses q uf cb s c H).
  cbn. repeat split; reflexivity.
Qed.

Lemma unmatched_record_leaves_cache_witness :
  hr_cache (serviceUp ["10.0.0.1"] (portQuery 8080) None (fun _ => Returned)
              actuatorRecord freshCache) = freshCache.
Proof.
  apply (unmatched_record_leaves_cache ["10.0.0.1"] (portQuery 8080) None
           (fun _ => Returned) actuatorRecord freshCache).
  vm_compute. reflexivity.
Defined.

(** C9: when a record passes the query filter, is admitted with a non-empty
    list and passes the user filter, and the callback raises on it, the
    callback has been called, the handler still returns normally with the
    cache the admission left, exactly as with a callback that returns, and
    the events that follow are handled from that cache. *)
Theorem callback_failure_is_swallowed myaddresses (b : browser_t) (s : service)
    (c : cache) (e : js_error) (evs : list browser_event) :
  let record := admittedRecord myaddresses s c in
  let spec := getSuggestedServiceSpec record in
  serviceQueryFilter (b_query b) s = true ->
  admittedList (fst (serviceAddressFilter myaddresses s c)) <> [] ->
  match b_filter b with
  | None => True
  | Some f => f record = FilterReturned true
  end ->
  b_callback b spec = Raised e ->
  let r := handleEvent myaddresses b (ServiceUpEvent s) c in
  let rest := handleEvents myaddresses b evs (hr_cache r) in
  In (CallCallback spec) (hr_calls r)
  /\ hr_completion r = Normal
  /\ hr_cache r = snd (serviceAddressFilter myaddresses s c)
  /\ r = handleEvent myaddresses (withCallback b (fun _ => Returned))
           (ServiceUpEvent s) c
  /\ handleEvents myaddresses b (ServiceUpEvent s :: evs) c
     = {| hr_cache := hr_cache rest;
          hr_calls := (hr_calls r ++ hr_calls rest)%list;
          hr_completion := hr_completion rest |}.
Proof.
  cbv zeta. intros Hq Hadm Hf Hcb.
  assert (Hr : handleEvent myaddresses b (ServiceUpEvent s) c
               = {| hr_cache := snd (serviceAddressFilter myaddresses s c);
                    hr_calls :=
                      match b_filter b with
                      | None => []
                      | Some _ => [CallUserFilter (admittedRecord myaddresses s c)]
                      end
                      ++ [CallCallback
                            (getSuggestedServiceSpec (admittedRecord myaddresses s c))];
                    hr_completion := Normal |}).
  { cbn [handleEvent]. rewrite serviceUp_matched by assumption. cbv zeta.
    destruct (fst (serviceAddressFilter myaddresses s c)) as [[|a l]|e'];
      cbn [admittedList] in Hadm; [congruence| |congruence].
    destruct (b_filter b) as [f|]; [rewrite Hf|]; reflexivity. }
  assert (Hquiet : handleEvent myaddresses (withCallback b (fun _ => Returned))
                     (ServiceUpEvent s) c
                   = handleEvent myaddresses b (ServiceUpEvent s) c).
  { rewrite Hr. cbn [handleEvent withCallback b_query b_filter b_callback].
    rewrite serviceUp_matched by assumption. cbv zeta.
    destruct (fst (serviceAddressFilter myaddresses s c)) as [[|a l]|e'];
      cbn [admittedList] in Hadm; [congruence| |congruence].
    destruct (b_filter b) as [f|]; [rewrite Hf|]; reflexivity. }
  cbn [handleEvents]. rewrite Hquiet. rewrite Hr. cbn [hr_cache hr_calls hr_completion].
  repeat split.
  apply in_app_iff. right. now left.
Qed.

Lemma callback_failure_is_swallowed_witness :
  hr_completion (handleEvent [] failingBrowser (ServiceUpEvent actuatorRecord)
                   freshCache)
  = Normal.
Proof.
  refine (proj1 (proj2 (callback_failure_is_swallowed [] failingBrowser
            actuatorRecord freshCache (Error "consumer failed") [] _ _ _ _))).
  - vm_compute. reflexivity.
  - vm_compute. discriminate.
  - reflexivity.
  - reflexivity.
Defined.

(** ** Starting discovery *)




(** * Further properties of the pipeline *)

(** ** Prefix lengths *)

Lemma common_prefix_len_sym (a b : string) :
  common_prefix_len a b = common_prefix_len b a.
Proof.
  revert b. induction a as [|c1 a IH]; intros [|c2 b]; try reflexivity.
  cbn [common_prefix_len]. rewrite (Ascii.eqb_sym c2 c1).
  destruct (Ascii.eqb c1 c2); [now rewrite IH | reflexivity].
Qed.

(** X1: the matching prefix length does not depend on which of the two
    addresses is the service's and which the local one. *)
Theorem getMatchingPrefixLen_sym (a b : string) :
  getMatchingPrefixLen a b = getMatchingPrefixLen b a.
Proof. rewrite !getMatchingPrefixLen_common. apply common_prefix_len_sym. Qed.

(** X2: the matching prefix length is the length of a common prefix of the
    two strings that cannot be extended: past it one of the strings ends or
    the next characters differ. *)
Theorem getMatchingPrefixLen_longest (a b : string) :
  exists p a' b',
    a = p ++ a' /\ b = p ++ b'
    /\ String.length p = getMatchingPrefixLen a b
    /\ match a', b' with
       | String c1 _, String c2 _ => c1 <> c2
       | _, _ => True
       end.
Proof. rewrite getMatchingPrefixLen_common. apply common_prefix_len_spec. Qed.

Lemma common_prefix_len_le (a b : string) :
  (common_prefix_len a b <= String.length a)%nat.
Proof.
  revert b. induction a as [|c1 a IH]; intros [|c2 b]; simpl; try lia.
  destruct (Ascii.eqb c1 c2); [specialize (IH b)|]; lia.
Qed.

Lemma common_prefix_len_full (a b : string) :
  common_prefix_len a b = String.length a <-> String.prefix a b = true.
Proof.
  revert b. induction a as [|c1 a IH]; intros [|c2 b]; simpl.
  - tauto.
  - tauto.
  - split; discriminate.
  - destruct (Ascii.eqb_spec c1 c2) as [->|Hne].
    + destruct (ascii_dec c2 c2); [|congruence].
      rewrite <- IH. split; [intros [= H]; exact H | intros ->; reflexivity].
    + destruct (ascii_dec c1 c2); [congruence|]. split; discriminate.
Qed.

(** X3: the matching prefix length never exceeds the length of either
    address; it is the whole length of the first exactly when the first is a
    prefix of the second, so an address matches itself over its whole
    length. *)
Theorem getMatchingPrefixLen_bounds (a b : string) :
  (getMatchingPrefixLen a b <= String.length a)%nat
  /\ (getMatchingPrefixLen a b <= String.length b)%nat
  /\ (getMatchingPrefixLen a b = String.length a <-> String.prefix a b = true)
  /\ getMatchingPrefixLen a a = String.length a.
Proof.
  rewrite !getMatchingPrefixLen_common. repeat split.
  - apply common_prefix_len_le.
  - rewrite common_prefix_len_sym. apply common_prefix_len_le.
  - apply common_prefix_len_full.
  - apply common_prefix_len_full.
  - apply common_prefix_len_full. induction a as [|c a IH]; simpl; [reflexivity|].
    destruct (ascii_dec c c); [exact IH | congruence].
Qed.

(** ** Ranking *)

Lemma in_num_insert x y l : In x (num_insert y l) <-> y = x \/ In x l.
Proof.
  induction l as [|z l IH]; simpl; [reflexivity|].
  destruct (y <=? z)%nat; simpl; rewrite ?IH; intuition.
Qed.

Lemma num_insert_sorted x l :
  StronglySorted le l -> StronglySorted le (num_insert x l).
Proof.
  induction l as [|y l IH]; simpl; intros H.
  - repeat constructor.
  - inversion H as [|? ? Hs Hall]; subst.
    destruct (x <=? y)%nat eqn:E.
    + apply Nat.leb_le in E. constructor; [assumption|].
      constructor; [assumption|].
      eapply List.Forall_impl; [|exact Hall]. simpl. intros; lia.
    + apply Nat.leb_gt in E. constructor; [auto|].
      apply List.Forall_forall. intros z Hz. apply in_num_insert in Hz.
      destruct Hz as [<-|Hz]; [lia|].
      exact (proj1 (List.Forall_forall _ _) Hall z Hz).
Qed.

Lemma num_sort_sorted l : StronglySorted le (num_sort l).
Proof.
  induction l as [|x l IH]; simpl; [constructor | now apply num_insert_sorted].
Qed.

Lemma last_max_sorted l :
  StronglySorted le l -> forall y, In y l -> (y <= List.last l O)%nat.
Proof.
  induction l as [|x l IH]; intros Hs y Hy; [destruct Hy|].
  inversion Hs as [|? ? Hs' Hall]; subst.
  destruct l as [|z l].
  - destruct Hy as [<-|[]]. simpl. lia.
  - change (List.last (x :: z :: l) O) with (List.last (z :: l) O).
    destruct Hy as [<-|Hy]; [|now apply IH].
    transitivity z.
    + exact (proj1 (List.Forall_forall _ _) Hall z (or_introl eq_refl)).
    + apply IH; [assumption | now left].
Qed.

Lemma set_not_nil {V} (o : jsobj V) k v : set o k v <> [].
Proof. destruct o as [|[k' v'] o]; simpl; [|destruct (String.eqb k' k)]; discriminate. Qed.

Lemma set_NoDup {V} (o : jsobj V) k v :
  List.NoDup (map fst o) -> List.NoDup (map fst (set o k v)).
Proof.
  induction o as [|[k0 v0] o IH]; simpl; intros H.
  - constructor; [intros []|constructor].
  - destruct (String.eqb k0 k) eqn:E; simpl; [exact H|].
    inversion H as [|? ? Hnotin Hnd]; subst. constructor; [|auto].
    rewrite in_fst_set. intros [Hin| ->]; [contradiction|].
    rewrite String.eqb_refl in E. discriminate.
Qed.

Lemma keys_cons_perm {V} (kv : string * V) (o : jsobj V) :
  Permutation (keys (kv :: o)) (fst kv :: keys o).
Proof.
  assert (Hins : forall x l, Permutation (insert_index x l) (x :: l)).
  { intros x l. induction l as [|y l IH]; simpl; [reflexivity|].
    destruct (fst x <=? fst y)%N; [reflexivity|].
    rewrite IH. apply perm_swap. }
  unfold keys, index_keys, string_keys. simpl.
  destruct (array_index (fst kv)) as [n|]; simpl.
  - exact (Permutation_app_tail _ (Permutation_map snd (Hins (n, fst kv) _))).
  - symmetry. apply Permutation_middle.
Qed.

Lemma keys_perm {V} (o : jsobj V) : Permutation (keys o) (map fst o).
Proof.
  induction o as [|kv o IH]; [reflexivity|].
  rewrite keys_cons_perm. simpl. now rewrite IH.
Qed.

Section RankingFacts.
Variable myaddresses : list string.

Lemma storeMatch_eq a (rs : gmap nat (jsobj bool)) m :
  storeMatch a rs m
  = <[getMatchingPrefixLen a m :=
        set (default [] (rs !! getMatchingPrefixLen a m)) a true]> rs.
Proof.
  unfold storeMatch, jsobj in *. cbv zeta.
  destruct (rs !! getMatchingPrefixLen a m) eqn:E.
  - cbv iota. now rewrite E.
  - rewrite lookup_insert_eq. simpl. now rewrite insert_insert_eq.
Qed.

Lemma stored_storeMatch a (rs : gmap nat (jsobj bool)) m n' a' :
  stored (storeMatch a rs m) n' a'
  <-> stored rs n' a' \/ (n' = getMatchingPrefixLen a m /\ a' = a).
Proof.
  rewrite storeMatch_eq. unfold stored.
  destruct (decide (n' = getMatchingPrefixLen a m)) as [->|Hne].
  - rewrite lookup_insert_eq. split.
    + intros [o [[= <-] Hin]]. apply in_fst_set in Hin.
      destruct Hin as [Hin| ->]; [|auto].
      destruct (rs !! getMatchingPrefixLen a m) as [o|]; [|destruct Hin].
      left. eauto.
    + intros [[o [Ho Hin]] | [_ ->]]; eexists; (split; [reflexivity|]);
        apply in_fst_set; [rewrite Ho; auto | auto].
  - rewrite lookup_insert_ne by congruence. split; [auto|].
    intros [H|[H _]]; [assumption|congruence].
Qed.

Lemma store_wf_storeMatch a (rs : gmap nat (jsobj bool)) m :
  store_wf rs -> store_wf (storeMatch a rs m).
Proof.
  intros Hwf n o. rewrite storeMatch_eq.
  destruct (decide (n = getMatchingPrefixLen a m)) as [->|Hne].
  - rewrite lookup_insert_eq. intros [= <-]. split; [apply set_not_nil|].
    apply set_NoDup.
    destruct (rs !! getMatchingPrefixLen a m) as [o|] eqn:E; simpl.
    + now apply (Hwf _ _ E).
    + constructor.
  - rewrite lookup_insert_ne by congruence. apply Hwf.
Qed.

Lemma stored_inner a ms n' a' : forall rs : gmap nat (jsobj bool),
  stored (fold_left (storeMatch a) ms rs) n' a'
  <-> stored rs n' a'
      \/ (a' = a /\ exists m, In m ms /\ getMatchingPrefixLen a m = n').
Proof.
  induction ms as [|m ms IH]; intros rs; simpl.
  - split; [auto|]. intros [H|[_ [m [[] _]]]]. exact H.
  - rewrite IH, stored_storeMatch. split.
    + intros [[H|[-> ->]]|[-> [m' [Hm' Hlen]]]]; eauto 8.
    + intros [H|[-> [m' [[<-|Hm'] Hlen]]]]; eauto 8.
Qed.

Lemma store_wf_inner a ms : forall rs : gmap nat (jsobj bool),
  store_wf rs -> store_wf (fold_left (storeMatch a) ms rs).
Proof.
  induction ms as [|m ms IH]; intros rs Hwf; simpl; [assumption|].
  apply IH. now apply store_wf_storeMatch.
Qed.

Lemma stored_build candidates n' a' :
  stored (buildResultStore myaddresses candidates) n' a'
  <-> In a' candidates
      /\ exists m, In m myaddresses /\ getMatchingPrefixLen a' m = n'.
Proof.
  unfold buildResultStore.
  assert (Hgen : forall rs : gmap nat (jsobj bool),
    stored (fold_left (fun rs a => fold_left (storeMatch a) myaddresses rs)
                      candidates rs) n' a'
    <-> stored rs n' a'
        \/ (In a' candidates
            /\ exists m, In m myaddresses /\ getMatchingPrefixLen a' m = n')).
  { induction candidates as [|a l IH]; intros rs; simpl.
    - split; [auto|]. intros [H|[[] _]]. exact H.
    - rewrite IH, stored_inner. split.
      + intros [[H|[-> H]]|[Hin H]]; auto.
      + intros [H|[[<-|Hin] H]]; auto. }
  rewrite Hgen. split; [|auto].
  intros [[o [Ho _]]|H]; [|assumption]. rewrite lookup_empty in Ho. discriminate.
Qed.

Lemma store_wf_build candidates : store_wf (buildResultStore myaddresses candidates).
Proof.
  unfold buildResultStore.
  assert (Hgen : forall rs : gmap nat (jsobj bool), store_wf rs ->
    store_wf (fold_left (fun rs a => fold_left (storeMatch a) myaddresses rs)
                        candidates rs)).
  { induction candidates as [|a l IH]; intros rs Hwf; simpl; [assumption|].
    apply IH. now apply store_wf_inner. }
  apply Hgen. intros n o Ho. rewrite lookup_empty in Ho. discriminate.
Qed.

(** What [getAddressesWithLongestPrefixMatch] returns: the keys of the group
    stored under the largest prefix length, when there is one. *)
Lemma longest_group candidates :
  let rs := buildResultStore myaddresses candidates in
  (rs = ∅ /\ getAddressesWithLongestPrefixMatch myaddresses candidates = [])
  \/ exists kmax o,
       rs !! kmax = Some o
       /\ getAddressesWithLongestPrefixMatch myaddresses candidates = keys o
       /\ forall k, is_Some (rs !! k) -> (k <= kmax)%nat.
Proof.
  cbv zeta. unfold getAddressesWithLongestPrefixMatch.
  set (rs := buildResultStore myaddresses candidates).
  destruct (map fst (map_to_list rs)) as [|k0 ks] eqn:E.
  - left. split; [|reflexivity].
    apply map_to_list_empty_iff. now destruct (map_to_list rs).
  - right.
    destruct (longest_prefix_group_exists myaddresses candidates) as [o Ho].
    { fold rs. rewrite E. discriminate. }
    cbv zeta in Ho. fold rs in Ho. rewrite E in Ho.
    exists (List.last (num_sort (k0 :: ks)) O), o.
    split; [assumption|]. split; [now rewrite Ho|].
    intros k [v Hk]. apply last_max_sorted; [apply num_sort_sorted|].
    apply in_num_sort. rewrite <- E. apply in_map_iff. exists (k, v).
    split; [reflexivity|]. apply list_elem_of_In, elem_of_map_to_list. exact Hk.
Qed.

Lemma in_longest_prefix_match candidates a :
  In a (getAddressesWithLongestPrefixMatch myaddresses candidates)
  <-> longestMatch myaddresses candidates a.
Proof.
  unfold longestMatch.
  destruct (longest_group candidates) as [[Hempty Hres]|(kmax & o & Ho & Hres & Hmax)];
    rewrite Hres.
  - split; [intros []|]. intros [Hin [m [Hm _]]]. exfalso.
    assert (Hst : stored (buildResultStore myaddresses candidates)
                    (getMatchingPrefixLen a m) a) by (apply stored_build; eauto).
    destruct Hst as [o [Ho _]]. rewrite Hempty, lookup_empty in Ho. discriminate.
  - rewrite in_keys. split.
    + intros Hin.
      assert (Hst : stored (buildResultStore myaddresses candidates) kmax a)
        by (exists o; auto).
      apply stored_build in Hst. destruct Hst as [Hc [m [Hm Hlen]]].
      split; [assumption|]. exists m. split; [assumption|].
      intros a' m' Ha' Hm'. rewrite Hlen. apply Hmax.
      assert (Hst' : stored (buildResultStore myaddresses candidates)
                       (getMatchingPrefixLen a' m') a') by (apply stored_build; eauto).
      destruct Hst' as [o' [Ho' _]]. eauto.
    + intros [Hc [m [Hm Hbest]]].
      assert (Hst : stored (buildResultStore myaddresses candidates)
                      (getMatchingPrefixLen a m) a) by (apply stored_build; eauto).
      destruct (store_wf_build candidates kmax o Ho) as [Hne _].
      destruct o as [|[a0 v0] o]; [congruence|].
      assert (Hst0 : stored (buildResultStore myaddresses candidates) kmax a0)
        by (eexists; split; [exact Ho | now left]).
      apply stored_build in Hst0. destruct Hst0 as [Hc0 [m0 [Hm0 Hlen0]]].
      assert (Heq : getMatchingPrefixLen a m = kmax).
      { apply Nat.le_antisymm.
        - apply Hmax. destruct Hst as [o' [Ho' _]]. eauto.
        - rewrite <- Hlen0. now apply Hbest. }
      rewrite Heq in Hst. destruct Hst as [o' [Ho' Hin]].
      pose proof (eq_trans (eq_sym Ho) Ho') as Hsame.
      inversion Hsame; subst. exact Hin.
Qed.

Lemma longest_prefix_match_NoDup candidates :
  List.NoDup (getAddressesWithLongestPrefixMatch myaddresses candidates).
Proof.
  destruct (longest_group candidates) as [[_ Hres]|(kmax & o & Ho & Hres & _)];
    rewrite Hres; [constructor|].
  eapply Permutation_NoDup; [symmetry; apply keys_perm|].
  now apply (store_wf_build candidates kmax o Ho).
Qed.

End RankingFacts.

(** ** The default sort *)

Lemma string_leb_trans (s1 s2 s3 : string) :
  String.leb s1 s2 = true -> String.leb s2 s3 = true -> String.leb s1 s3 = true.
Proof.
  revert s2 s3. induction s1 as [|c1 s1 IH]; intros [|c2 s2] [|c3 s3];
    try reflexivity; try discriminate.
  unfold String.leb in *. cbn [String.compare]. unfold Ascii.compare.
  destruct (N.compare_spec (N_of_ascii c1) (N_of_ascii c2)) as [E12|L12|G12];
    destruct (N.compare_spec (N_of_ascii c2) (N_of_ascii c3)) as [E23|L23|G23];
    try discriminate; intros H12 H23.
  - rewrite E12, E23, N.compare_refl. specialize (IH s2 s3).
    destruct (String.compare s1 s2), (String.compare s2 s3);
      try discriminate; now apply IH.
  - rewrite E12. now rewrite (proj2 (N.compare_lt_iff _ _) L23).
  - rewrite <- E23. now rewrite (proj2 (N.compare_lt_iff _ _) L12).
  - now rewrite (proj2 (N.compare_lt_iff _ _) (N.lt_trans _ _ _ L12 L23)).
Qed.

Lemma string_leb_false (x y : string) :
  String.leb x y = false -> String.leb y x = true.
Proof.
  intros H. destruct (String.leb_total x y) as [H'|H']; congruence.
Qed.

Lemma in_sort_insert x y l : In x (sort_insert y l) <-> y = x \/ In x l.
Proof.
  induction l as [|z l IH]; simpl; [reflexivity|].
  destruct (String.leb y z); simpl; rewrite ?IH; intuition.
Qed.

Lemma sort_insert_perm x l : Permutation (sort_insert x l) (x :: l).
Proof.
  induction l as [|y l IH]; simpl; [reflexivity|].
  destruct (String.leb x y); [reflexivity|].
  rewrite IH. apply perm_swap.
Qed.

Lemma js_sort_perm l : Permutation (js_sort l) l.
Proof.
  induction l as [|x l IH]; simpl; [reflexivity|].
  rewrite sort_insert_perm. now constructor.
Qed.

Lemma sort_insert_sorted x l :
  StronglySorted string_le l -> StronglySorted string_le (sort_insert x l).
Proof.
  induction l as [|y l IH]; simpl; intros H.
  - repeat constructor.
  - inversion H as [|? ? Hs Hall]; subst.
    destruct (String.leb x y) eqn:E.
    + constructor; [assumption|]. constructor; [exact E|].
      eapply List.Forall_impl; [|exact Hall].
      intros z Hz. exact (string_leb_trans _ _ _ E Hz).
    + constructor; [auto|].
      apply List.Forall_forall. intros z Hz. apply in_sort_insert in Hz.
      destruct Hz as [<-|Hz]; [now apply string_leb_false|].
      exact (proj1 (List.Forall_forall _ _) Hall z Hz).
Qed.

Lemma js_sort_sorted l : StronglySorted string_le (js_sort l).
Proof.
  induction l as [|x l IH]; simpl; [constructor | now apply sort_insert_sorted].
Qed.

(** A list has one sorted arrangement. *)
Lemma sorted_perm_eq (l l' : list string) :
  StronglySorted string_le l -> StronglySorted string_le l' ->
  Permutation l l' -> l = l'.
Proof.
  revert l'. induction l as [|x l IH]; intros l' Hs Hs' Hp.
  - apply Permutation_nil in Hp. now subst.
  - destruct l' as [|y l'].
    + symmetry in Hp. apply Permutation_nil in Hp. discriminate.
    + inversion Hs as [|? ? Hsl Hall]; subst.
      inversion Hs' as [|? ? Hsl' Hall']; subst.
      assert (Hxy : x = y).
      { assert (Hx : In x (y :: l'))
          by (eapply Permutation_in; [exact Hp | now left]).
        assert (Hy : In y (x :: l))
          by (eapply Permutation_in; [symmetry; exact Hp | now left]).
        destruct Hx as [Hx|Hx]; [now subst|].
        destruct Hy as [Hy|Hy]; [now subst|].
        apply String.leb_antisym.
        - exact (proj1 (List.Forall_forall _ _) Hall y Hy).
        - exact (proj1 (List.Forall_forall _ _) Hall' x Hx). }
      subst y. f_equal. apply IH; try assumption.
      eapply Permutation_cons_inv. exact Hp.
Qed.

(** ** What the ranking returns *)

(** X4: an address is returned by the ranking exactly when it is a candidate
    whose match with some local address is at least as long as the match of
    any candidate with any local address. *)
Theorem rank_returns_longest_matches myaddresses candidates a :
  In a (rankAddresses myaddresses candidates)
  <-> longestMatch myaddresses candidates a.
Proof.
  unfold rankAddresses. rewrite <- in_longest_prefix_match.
  split; apply Permutation_in; [|symmetry]; apply js_sort_perm.
Qed.

(** X5: the ranking lists its addresses in ascending order of the default
    sort and lists none twice, also when a candidate is reported twice or
    matches several local addresses equally well. *)
Theorem rank_sorted_without_duplicates myaddresses candidates :
  StronglySorted string_le (rankAddresses myaddresses candidates)
  /\ List.NoDup (rankAddresses myaddresses candidates).
Proof.
  unfold rankAddresses. split; [apply js_sort_sorted|].
  eapply Permutation_NoDup; [symmetry; apply js_sort_perm|].
  apply longest_prefix_match_NoDup.
Qed.

(** X6: the ranking depends only on which addresses are candidates and which
    are local, not on the order in which they are listed nor on repetitions. *)
Theorem rank_order_independent myaddresses myaddresses' candidates candidates' :
  (forall x, In x candidates <-> In x candidates') ->
  (forall x, In x myaddresses <-> In x myaddresses') ->
  rankAddresses myaddresses candidates = rankAddresses myaddresses' candidates'.
Proof.
  intros Hc Hm. unfold rankAddresses.
  apply sorted_perm_eq; [apply js_sort_sorted | apply js_sort_sorted |].
  rewrite !js_sort_perm.
  apply Permutation.NoDup_Permutation;
    [apply longest_prefix_match_NoDup | apply longest_prefix_match_NoDup |].
  intros a. rewrite !in_longest_prefix_match. unfold longestMatch.
  rewrite Hc. split; intros [Ha [m [Hm1 Hbest]]]; (split; [assumption|]);
    exists m; (split; [now apply Hm|]); intros a' m' Ha' Hm'; apply Hbest;
    first [now apply Hc | now apply Hm].
Qed.

Lemma rank_order_independent_witness :
  rankAddresses ["10.0.0.1"; "192.168.1.7"] ["10.0.0.6"; "10.0.0.5"; "10.0.0.6"]
  = rankAddresses ["192.168.1.7"; "10.0.0.1"] ["10.0.0.5"; "10.0.0.6"].
Proof.
  apply rank_order_independent; intros x; simpl; tauto.
Defined.

Lemma longest_prefix_match_nonempty myaddresses candidates :
  myaddresses <> [] -> candidates <> [] ->
  getAddressesWithLongestPrefixMatch myaddresses candidates <> [].
Proof.
  intros Hm Hc.
  destruct myaddresses as [|m ms]; [congruence|].
  destruct candidates as [|a l]; [congruence|].
  assert (Hst : stored (buildResultStore (m :: ms) (a :: l))
                  (getMatchingPrefixLen a m) a).
  { apply stored_build. split; [now left|]. exists m. split; [now left|reflexivity]. }
  destruct (longest_group (m :: ms) (a :: l))
    as [[Hempty _]|(kmax & o & Ho & Hres & _)].
  - destruct Hst as [o [Ho _]]. rewrite Hempty, lookup_empty in Ho. discriminate.
  - rewrite Hres. destruct (store_wf_build (m :: ms) (a :: l) kmax o Ho) as [Hne _].
    intros Hk. apply Hne.
    destruct o as [|kv o]; [reflexivity|].
    assert (Hin : In (fst kv) (keys (kv :: o))) by (apply in_keys; now left).
    rewrite Hk in Hin. destruct Hin.
Qed.

(** X7: the ranking returns no address exactly when there is no candidate or
    no local address; otherwise at least one candidate is returned. *)
Theorem rank_empty_iff myaddresses candidates :
  rankAddresses myaddresses candidates = []
  <-> myaddresses = [] \/ candidates = [].
Proof.
  split.
  - intros H. destruct myaddresses as [|m ms]; [now left|].
    destruct candidates as [|a l]; [now right|]. exfalso.
    apply (longest_prefix_match_nonempty (m :: ms) (a :: l)); try discriminate.
    apply Permutation_nil. rewrite <- H. unfold rankAddresses.
    apply js_sort_perm.
  - intros [-> | ->].
    + unfold rankAddresses, getAddressesWithLongestPrefixMatch.
      now rewrite buildResultStore_no_local, map_to_list_empty.
    + reflexivity.
Qed.

(** ** Admission and the cache *)

Lemma rank_not_nil myaddresses candidates :
  myaddresses <> [] -> candidates <> [] ->
  rankAddresses myaddresses candidates <> [].
Proof.
  intros Hm Hc H.
  apply (longest_prefix_match_nonempty myaddresses candidates Hm Hc).
  apply Permutation_nil. rewrite <- H. apply js_sort_perm.
Qed.

Lemma admitted_not_nil myaddresses cached new :
  myaddresses <> [] -> new <> [] -> admitted myaddresses cached new <> [].
Proof.
  intros Hm Hnew. unfold admitted. destruct new as [|first rest]; [congruence|].
  destruct (serviceIsLocal _ _); [discriminate|].
  destruct rest as [|second rest]; [discriminate|].
  now apply rank_not_nil.
Qed.

Lemma serviceIsLocal_no_local l : serviceIsLocal [] l = false.
Proof.
  destruct l as [[|x l]|]; try reflexivity.
  unfold serviceIsLocal. apply not_true_is_false. intros H.
  apply existsb_exists in H. destruct H as [y [_ H]]. discriminate.
Qed.

Lemma in_rank_in_candidates myaddresses candidates x :
  In x (rankAddresses myaddresses candidates) -> In x candidates.
Proof.
  intros H. unfold rankAddresses in H.
  apply (Permutation_in _ (js_sort_perm _)) in H.
  apply in_longest_prefix_match in H. apply H.
Qed.

(** An address flagged in the own entry of a name is found under the
    name. *)
Lemma own_flag_seen (c : cache) nm x :
  flag_set (entryOf c nm) x = true ->
  seen c nm x = true /\ resolve c nm = IsObject (RefEntry nm).
Proof.
  unfold entryOf, flag_set, seen, resolve, readFlag.
  destruct (own c !! nm) as [o|] eqn:Ho; cbn; [|discriminate].
  rewrite Ho. cbn. destruct (get o x) as [b|]; [|discriminate].
  intros ->. auto.
Qed.

(** An address that is not found under a name is not flagged in the own
    entry of the name. *)
Lemma unseen_own_flag (c : cache) nm x :
  seen c nm x = false -> flag_set (entryOf c nm) x = false.
Proof.
  intros H. destruct (flag_set (entryOf c nm) x) eqn:F; [|reflexivity].
  apply own_flag_seen in F. destruct F as [F _]. congruence.
Qed.

(** X8: a record all of whose addresses are already cached for its name is
    a pure duplicate: nothing is admitted and the cache is left as it is. *)
Theorem known_addresses_are_dropped myaddresses (s : service) (c : cache) nm addrs :
  name s = Some nm -> addresses s = Some addrs ->
  (forall x, In x addrs -> flag_set (entryOf c nm) x = true) ->
  serviceAddressFilter myaddresses s c = (Ok [], c).
Proof.
  intros Hn Ha Hall.
  apply (serviceAddressFilter_seen myaddresses s c nm addrs Hn Ha).
  - intros x Hx. now apply own_flag_seen, Hall.
  - destruct addrs as [|a addrs]; [now left|]. right.
    destruct (own_flag_seen c nm a (Hall a (or_introl eq_refl))) as [_ Hr].
    rewrite Hr. discriminate.
Qed.

Lemma known_addresses_are_dropped_witness :
  serviceAddressFilter ["10.0.0.1"] (serviceNamed "sensor" ["10.0.0.6"; "10.0.0.5"])
    (cacheOf {[ "sensor" := [("10.0.0.5", true); ("10.0.0.6", true)] ]})
  = (Ok [], cacheOf {[ "sensor" := [("10.0.0.5", true); ("10.0.0.6", true)] ]}).
Proof.
  apply (known_addresses_are_dropped ["10.0.0.1"] _ _ "sensor"
           ["10.0.0.6"; "10.0.0.5"]); try reflexivity.
  intros x [<-|[<-|[]]]; vm_compute; reflexivity.
Defined.

(** What is found and what is cached under a name depends on the own
    entry of the name, on [Object.prototype] and on the function of that
    name only. *)
Lemma seen_ext (c c' : cache) nm :
  own c' !! nm = own c !! nm -> protoFlags c' = protoFlags c ->
  fnFlags c' !! nm = fnFlags c !! nm ->
  (forall x, seen c' nm x = seen c nm x) /\ cachedKeys c' nm = cachedKeys c nm.
Proof.
  intros Ho Hp Hf. unfold seen, cachedKeys, resolve. rewrite Ho, Hp.
  destruct (own c !! nm) as [o|] eqn:E.
  - unfold readFlag, ownProperties, inheritedFlag. rewrite Ho, Hp, E. auto.
  - destruct (String.eqb nm "__proto__").
    + unfold readFlag, ownProperties, inheritedFlag. rewrite Hp. auto.
    + destruct (existsb (String.eqb nm) objectPrototypeFunctions).
      * unfold readFlag, ownProperties, inheritedFlag. rewrite Hf, Hp. auto.
      * destruct (get (protoFlags c) nm); auto.
Qed.

Lemma frame_other (c c' : cache) nm nm' r :
  resolve c nm = IsObject r -> frame c c' r ->
  nm <> "__proto__" -> nm' <> nm ->
  own c' !! nm' = own c !! nm' /\ protoFlags c' = protoFlags c
  /\ fnFlags c' !! nm' = fnFlags c !! nm'.
Proof.
  intros Hr Hframe Hnp Hne.
  destruct (resolve_object_inv c nm r Hr)
    as [[-> _]|[(-> & _ & ->)|(-> & _ & _ & _)]]; [|congruence|].
  - destruct Hframe as (Hp & Hf & Ho). repeat split; auto; congruence.
  - destruct Hframe as (Ho & Hp & Hf). repeat split; auto; congruence.
Qed.

Lemma created_other (c : cache) nm nm' o :
  nm' <> nm ->
  own (setOwnProperties c (RefEntry nm) o) !! nm' = own c !! nm'.
Proof. intros Hne. cbn [own setOwnProperties]. apply lookup_insert_ne. congruence. Qed.

(** X9: admission only adds to what is cached for the name of the record,
    and isolates the names from each other.  For a record whose name does
    not look up to a boolean, the addresses found under the name afterwards
    are those found before and those of the record; the call writes on one
    object only, the one the name looks up to (its own entry, created if the
    name looked up to nothing); and unless the name is [__proto__], what is
    found and what is cached under every other name stays as it was. *)
Theorem admission_only_adds myaddresses (s : service) (c : cache) nm addrs :
  name s = Some nm -> truthy_string nm = true -> addresses s = Some addrs ->
  resolve c nm <> IsPrimitive ->
  let c' := snd (serviceAddressFilter myaddresses s c) in
  (forall x, seen c' nm x = true <-> seen c nm x = true \/ In x addrs)
  /\ (forall r, resolve c nm = IsObject r -> frame c c' r)
  /\ (resolve c nm = IsUndefined -> frame c c' (RefEntry nm))
  /\ (nm <> "__proto__" ->
      forall nm' x, nm' <> nm ->
        seen c' nm' x = seen c nm' x /\ cachedKeys c' nm' = cachedKeys c nm').
Proof.
  intros Hn Ht Ha Hnp. cbv zeta.
  destruct (serviceAddressFilter_wellformed myaddresses s c nm addrs Hn Ht Ha Hnp)
    as (c' & new & (_ & Hflag & _) & Hframe & Hframe' & Heq).
  rewrite Heq. cbn [snd].
  split; [exact Hflag|]. split; [exact Hframe|]. split; [exact Hframe'|].
  intros Hproto nm' x Hne.
  destruct (resolve c nm) as [r| |] eqn:Hr; [|congruence|].
  - destruct (frame_other c c' nm nm' r Hr (Hframe r eq_refl) Hproto Hne)
      as (Ho & Hp & Hf).
    destruct (seen_ext c c' nm' Ho Hp Hf) as [Hs Hk]. auto.
  - destruct (Hframe' eq_refl) as (Hp & Hf & Ho).
    assert (Hf' : fnFlags c' !! nm' = fnFlags c !! nm') by congruence.
    destruct (seen_ext c c' nm' (Ho nm' Hne) Hp Hf') as [Hs Hk]. auto.
Qed.

Lemma admission_only_adds_witness :
  seen (snd (serviceAddressFilter ["10.0.0.1"]
               (serviceNamed "sensor" ["10.0.0.5"]) freshCache)) "sensor" "10.0.0.5"
  = true
  <-> seen freshCache "sensor" "10.0.0.5" = true \/ In "10.0.0.5" ["10.0.0.5"].
Proof.
  refine (proj1 (admission_only_adds ["10.0.0.1"]
                   (serviceNamed "sensor" ["10.0.0.5"]) freshCache "sensor"
                   ["10.0.0.5"] _ _ _ _) "10.0.0.5"); try reflexivity.
  vm_compute. discriminate.
Defined.

(** X10: a record without a name, with an empty name, without addresses or
    with an empty array of addresses admits nothing and leaves the cache as
    it is. *)
Theorem malformed_record_is_dropped myaddresses (s : service) (c : cache) :
  name s = None \/ name s = Some "" \/ addresses s = None \/ addresses s = Some [] ->
  serviceAddressFilter myaddresses s c = (Ok [], c).
Proof. apply serviceAddressFilter_malformed. Qed.

Lemma malformed_record_is_dropped_witness :
  serviceAddressFilter ["10.0.0.1"]
    {| name := Some ""; type := "_zmq._tcp"; port := Some 8080%Z;
       addresses := Some ["10.0.0.5"]; properties := None |} freshCache
  = (Ok [], freshCache).
Proof.
  apply (malformed_record_is_dropped ["10.0.0.1"]). right. left. reflexivity.
Defined.

(** X11: on a host with at least one local address, a record whose name
    does not look up to a boolean and that reports at least one address the
    cache lookup does not find is always admitted with a non-empty list. *)
Theorem new_address_is_admitted myaddresses (s : service) (c : cache) nm addrs a :
  myaddresses <> [] ->
  name s = Some nm -> truthy_string nm = true -> addresses s = Some addrs ->
  resolve c nm <> IsPrimitive ->
  In a addrs -> seen c nm a = false ->
  exists l, fst (serviceAddressFilter myaddresses s c) = Ok l /\ l <> [].
Proof.
  intros Hm Hn Ht Ha Hnp Hin Hf.
  destruct (serviceAddressFilter_wellformed myaddresses s c nm addrs Hn Ht Ha Hnp)
    as (c' & new & (Hnew & _) & _ & _ & Heq).
  rewrite Heq. cbn [fst]. eexists. split; [reflexivity|].
  apply admitted_not_nil; [assumption|].
  intros ->. apply (Hnew a). auto.
Qed.

Lemma new_address_is_admitted_witness :
  exists l,
    fst (serviceAddressFilter ["192.168.1.7"]
           (serviceNamed "sensor" ["10.0.0.5"; "10.0.1.9"])
           (cacheOf {[ "sensor" := [("10.0.0.5", true)] ]})) = Ok l /\ l <> [].
Proof.
  apply (new_address_is_admitted ["192.168.1.7"] _ _ "sensor"
           ["10.0.0.5"; "10.0.1.9"] "10.0.1.9"); try reflexivity.
  - discriminate.
  - vm_compute. discriminate.
  - simpl; auto.
Defined.

(** X12: on a host without any local address, a record whose name does not
    look up to a boolean and that reports two or more distinct addresses the
    cache lookup does not find is admitted with the empty list, although all
    its addresses are found afterwards; the same record is therefore dropped
    again when it is reported again. *)
Theorem no_local_address_drops_multihomed (s : service) (c : cache) nm addrs a b :
  name s = Some nm -> truthy_string nm = true -> addresses s = Some addrs ->
  resolve c nm <> IsPrimitive ->
  a <> b ->
  In a addrs -> seen c nm a = false ->
  In b addrs -> seen c nm b = false ->
  let r := serviceAddressFilter [] s c in
  fst r = Ok []
  /\ (forall x, In x addrs -> seen (snd r) nm x = true)
  /\ serviceAddressFilter [] s (snd r) = (Ok [], snd r).
Proof.
  intros Hn Ht Ha Hnp Hab Hina Hfa Hinb Hfb. cbv zeta.
  pose proof (serviceAddressFilter_again [] s c) as Hagain.
  destruct (serviceAddressFilter_wellformed [] s c nm addrs Hn Ht Ha Hnp)
    as (c' & new & (Hnew & Hflag & _) & _ & _ & Heq).
  rewrite Heq in *. cbn [fst snd] in *.
  split; [|split; [intros x Hx; apply Hflag; now right | eapply Hagain; reflexivity]].
  f_equal. unfold admitted. rewrite serviceIsLocal_no_local.
  destruct new as [|x [|y rest]].
  - exfalso. apply (Hnew a). auto.
  - exfalso. assert (Ha' : In a [x]) by (apply Hnew; auto).
    assert (Hb' : In b [x]) by (apply Hnew; auto).
    destruct Ha' as [<-|[]]. destruct Hb' as [<-|[]]. congruence.
  - unfold rankAddresses, getAddressesWithLongestPrefixMatch.
    now rewrite buildResultStore_no_local, map_to_list_empty.
Qed.

Lemma no_local_address_drops_multihomed_witness :
  fst (serviceAddressFilter [] (serviceNamed "sensor" ["10.0.0.5"; "10.0.1.9"])
         freshCache)
  = Ok [].
Proof.
  refine (proj1 (no_local_address_drops_multihomed _ freshCache "sensor"
           ["10.0.0.5"; "10.0.1.9"] "10.0.0.5" "10.0.1.9" _ _ _ _ _ _ _ _ _));
    try reflexivity.
  - vm_compute. discriminate.
  - discriminate.
  - simpl; auto.
  - simpl; auto.
Defined.

(** X13: every admitted address is either the loopback address, and then
    some address cached for the name or reported by the record is a local
    address, or an address of the record that the cache lookup did not find,
    and that was not flagged in the entry of the name. *)
Theorem admitted_is_loopback_or_new myaddresses (s : service) (c : cache) x :
  In x (admittedList (fst (serviceAddressFilter myaddresses s c))) ->
  exists nm addrs,
    name s = Some nm /\ addresses s = Some addrs
    /\ ((x = LOCAL_ADDR
         /\ exists y, (In y (cachedKeys c nm) \/ In y addrs) /\ In y myaddresses)
        \/ (In x addrs /\ seen c nm x = false
            /\ flag_set (entryOf c nm) x = false)).
Proof.
  intros Hx.
  destruct (service_shape s) as [Hbad|(nm & addrs & Hn & Ht & Ha)].
  - rewrite serviceAddressFilter_malformed in Hx by tauto. destruct Hx.
  - destruct (resolve c nm) as [r| |] eqn:Hr.
    2: { rewrite (serviceAddressFilter_primitive myaddresses s c nm addrs Hn Ht Ha Hr)
           in Hx.
         destruct (forallb _ addrs); destruct Hx. }
    all: destruct (serviceAddressFilter_wellformed myaddresses s c nm addrs Hn Ht Ha)
      as (c' & new & (Hnew & _ & Hkeys & _) & _ & _ & Heq);
      [rewrite Hr; discriminate|];
      rewrite Heq in Hx; cbn [fst admittedList] in Hx;
      exists nm, addrs; (split; [assumption|]); (split; [assumption|]);
      unfold admitted in Hx; (destruct new as [|first rest]; [destruct Hx|]);
      destruct (serviceIsLocal myaddresses (Some (cachedKeys c' nm))) eqn:L.
    + destruct Hx as [<-|[]]. left. split; [reflexivity|].
      apply serviceIsLocal_true in L. destruct L as [y [Hy Hm]].
      exists y. split; [|assumption].
      apply Hkeys in Hy. destruct Hy as [Hy|Hy]; [now left|].
      right. now apply Hnew.
    + right.
      assert (Hin : In x (first :: rest)).
      { destruct rest as [|second rest]; [exact Hx|].
        eapply in_rank_in_candidates. exact Hx. }
      apply Hnew in Hin. destruct Hin as [Hin Hs].
      auto using unseen_own_flag.
    + destruct Hx as [<-|[]]. left. split; [reflexivity|].
      apply serviceIsLocal_true in L. destruct L as [y [Hy Hm]].
      exists y. split; [|assumption].
      apply Hkeys in Hy. destruct Hy as [Hy|Hy]; [now left|].
      right. now apply Hnew.
    + right.
      assert (Hin : In x (first :: rest)).
      { destruct rest as [|second rest]; [exact Hx|].
        eapply in_rank_in_candidates. exact Hx. }
      apply Hnew in Hin. destruct Hin as [Hin Hs].
      auto using unseen_own_flag.
Qed.

Lemma admitted_is_loopback_or_new_witness :
  exists nm addrs,
    Some "sensor" = Some nm /\ Some ["10.0.0.5"; "10.0.1.9"] = Some addrs
    /\ (("10.0.1.9" = LOCAL_ADDR
         /\ exists y,
              (In y (cachedKeys (cacheOf {[ "sensor" := [("10.0.0.5", true)] ]}) nm)
               \/ In y addrs) /\ In y ["192.168.1.7"])
        \/ (In "10.0.1.9" addrs
            /\ seen (cacheOf {[ "sensor" := [("10.0.0.5", true)] ]}) nm "10.0.1.9"
               = false
            /\ flag_set (entryOf (cacheOf {[ "sensor" := [("10.0.0.5", true)] ]}) nm)
                 "10.0.1.9" = false)).
Proof.
  apply (admitted_is_loopback_or_new ["192.168.1.7"]
           (serviceNamed "sensor" ["10.0.0.5"; "10.0.1.9"])
           (cacheOf {[ "sensor" := [("10.0.0.5", true)] ]}) "10.0.1.9").
  vm_compute. auto.
Defined.

(** X14: the admitted list is always in ascending order of the default sort
    and never lists an address twice. *)
Theorem admitted_list_is_sorted myaddresses (s : service) (c : cache) :
  StronglySorted string_le
    (admittedList (fst (serviceAddressFilter myaddresses s c)))
  /\ List.NoDup (admittedList (fst (serviceAddressFilter myaddresses s c))).
Proof.
  destruct (service_shape s) as [Hbad|(nm & addrs & Hn & Ht & Ha)].
  - rewrite serviceAddressFilter_malformed by tauto. split; constructor.
  - destruct (resolve c nm) as [r| |] eqn:Hr.
    2: { rewrite (serviceAddressFilter_primitive myaddresses s c nm addrs Hn Ht Ha Hr).
         destruct (forallb _ addrs); split; constructor. }
    all: destruct (serviceAddressFilter_wellformed myaddresses s c nm addrs Hn Ht Ha)
      as (c' & new & _ & _ & _ & Heq); [rewrite Hr; discriminate|];
      rewrite Heq; cbn [fst admittedList]; unfold admitted;
      (destruct new as [|first rest]; [split; constructor|]);
      (destruct (serviceIsLocal _ _);
        [split; repeat constructor; intros []|]);
      (destruct rest as [|second rest];
        [split; repeat constructor; intros []|]);
      unfold rankAddresses; (split; [apply js_sort_sorted|]);
      (eapply Permutation_NoDup; [symmetry; apply js_sort_perm|]);
      apply longest_prefix_match_NoDup.
Qed.

(** ** Services that go down *)

Lemma removeServiceFromCache_named (s : service) (c : cache) nm :
  name s = Some nm -> truthy_string nm = true ->
  removeServiceFromCache s c
  = {| own := delete nm (own c); protoFlags := protoFlags c; fnFlags := fnFlags c |}.
Proof.
  intros Hn Ht. unfold removeServiceFromCache, truthy_opt_string.
  now rewrite Hn, Ht.
Qed.

Lemma resolve_removed (c : cache) nm :
  plainName c nm ->
  resolve {| own := delete nm (own c); protoFlags := protoFlags c;
             fnFlags := fnFlags c |} nm = IsUndefined.
Proof.
  intros (Hp & Hf & Hg). unfold resolve. cbn [own protoFlags fnFlags].
  rewrite lookup_delete_eq, Hf, Hg.
  destruct (String.eqb_spec nm "__proto__"); [contradiction | reflexivity].
Qed.

(** A record of a name that the cache object does not inherit, after the
    entry of the name has been removed. *)
Lemma removed_then_admitted myaddresses (s down : service) (c : cache) nm addrs a :
  myaddresses <> [] ->
  name down = Some nm -> name s = Some nm -> truthy_string nm = true ->
  addresses s = Some addrs ->
  plainName c nm ->
  In a addrs -> flag_set (protoFlags c) a = false ->
  resolve (removeServiceFromCache down c) nm = IsUndefined
  /\ exists l,
       fst (serviceAddressFilter myaddresses s (removeServiceFromCache down c)) = Ok l
       /\ l <> [].
Proof.
  intros Hm Hd Hn Ht Ha Hplain Hin Hf.
  rewrite (removeServiceFromCache_named down c nm Hd Ht).
  pose proof (resolve_removed c nm Hplain) as Hr.
  split; [exact Hr|].
  set (c0 := {| own := delete nm (own c); protoFlags := protoFlags c;
               fnFlags := fnFlags c |}) in *.
  destruct (serviceAddressFilter_wellformed myaddresses s c0 nm addrs Hn Ht Ha)
    as (c' & new & (Hnew & _) & _ & _ & Heq); [rewrite Hr; discriminate|].
  rewrite Heq. cbn [fst]. eexists. split; [reflexivity|].
  apply admitted_not_nil; [assumption|].
  intros ->. apply (Hnew a). split; [assumption|].
  unfold seen. rewrite Hr. exact Hf.
Qed.

(** X15: after a serviceDown event for a name that the cache object does
    not inherit, the name looks up to nothing, and an address counts as new
    for that name again unless it is flagged on [Object.prototype]: on a
    host with a local address, the next serviceUp record with that name and
    such an address is admitted with a non-empty list. *)
Theorem serviceDown_forgets_addresses myaddresses (s down : service) (c : cache)
    nm addrs a :
  myaddresses <> [] ->
  name down = Some nm -> name s = Some nm -> truthy_string nm = true ->
  addresses s = Some addrs ->
  plainName c nm ->
  In a addrs -> flag_set (protoFlags c) a = false ->
  let c0 := removeServiceFromCache down c in
  resolve c0 nm = IsUndefined
  /\ (forall x, seen c0 nm x = flag_set (protoFlags c) x)
  /\ exists l, fst (serviceAddressFilter myaddresses s c0) = Ok l /\ l <> [].
Proof.
  intros Hm Hd Hn Ht Ha Hplain Hin Hf. cbv zeta.
  destruct (removed_then_admitted myaddresses s down c nm addrs a
              Hm Hd Hn Ht Ha Hplain Hin Hf) as [Hr Hadm].
  split; [exact Hr|]. split; [|exact Hadm].
  intros x. unfold seen. rewrite Hr.
  now rewrite (removeServiceFromCache_named down c nm Hd Ht).
Qed.

Lemma serviceDown_forgets_addresses_witness :
  exists l,
    fst (serviceAddressFilter ["10.0.0.1"] (serviceNamed "sensor" ["10.0.0.5"])
           (removeServiceFromCache
              {| name := Some "sensor"; type := "_zmq._tcp"; port := None;
                 addresses := None; properties := None |}
              (cacheOf {[ "sensor" := [("10.0.0.5", true)] ]}))) = Ok l
    /\ l <> [].
Proof.
  refine (proj2 (proj2 (serviceDown_forgets_addresses ["10.0.0.1"] _ _ _ "sensor"
                   ["10.0.0.5"] "10.0.0.5" _ _ _ _ _ _ _ _))); try reflexivity.
  - discriminate.
  - repeat split. discriminate.
  - simpl; auto.
Defined.

(** X16: a serviceDown event removes the own entry of the record's name
    from the cache object and touches nothing else: no other entry, no flag
    on [Object.prototype] or on one of its functions.  When the record has
    no name, or an empty one, or a name under which the cache object has no
    entry of its own, the cache is left exactly as it is; in particular what
    has been flagged under an inherited name stays flagged. *)
Theorem removeServiceFromCache_frame (s : service) (c : cache) :
  (truthy_opt_string (name s) = false -> removeServiceFromCache s c = c)
  /\ (forall nm, name s = Some nm -> truthy_string nm = true ->
        own (removeServiceFromCache s c) !! nm = None)
  /\ (forall nm', name s <> Some nm' ->
        own (removeServiceFromCache s c) !! nm' = own c !! nm')
  /\ protoFlags (removeServiceFromCache s c) = protoFlags c
  /\ fnFlags (removeServiceFromCache s c) = fnFlags c
  /\ (forall nm, name s = Some nm -> own c !! nm = None ->
        removeServiceFromCache s c = c).
Proof.
  split; [|split; [|split; [|split; [|split]]]].
  - intros H. unfold removeServiceFromCache. now rewrite H.
  - intros nm Hn Ht. rewrite (removeServiceFromCache_named s c nm Hn Ht).
    apply lookup_delete_eq.
  - intros nm' Hne. unfold removeServiceFromCache.
    destruct (truthy_opt_string (name s)); [|reflexivity]. cbn [negb].
    destruct (name s) as [nm|]; [|reflexivity].
    cbn [own]. apply lookup_delete_ne. congruence.
  - unfold removeServiceFromCache.
    destruct (truthy_opt_string (name s)); [|reflexivity]. cbn [negb].
    now destruct (name s).
  - unfold removeServiceFromCache.
    destruct (truthy_opt_string (name s)); [|reflexivity]. cbn [negb].
    now destruct (name s).
  - intros nm Hn Hnone. unfold removeServiceFromCache. rewrite Hn.
    destruct (truthy_opt_string (Some nm)); [|reflexivity]. cbn [negb].
    rewrite delete_id by exact Hnone. now destruct c.
Qed.

(** X17: [stopDiscovering] can be called again at no effect.  While a
    browser exists it removes the browser and puts an empty object in place
    of the cache object; what has been flagged on [Object.prototype] and on
    its functions stays, and where nothing has, any record is handled
    afterwards as on a fresh cache.  When no browser exists it changes
    nothing, and in particular does not empty the cache. *)
Theorem stopDiscovering_twice (st : mdns_state) :
  stopDiscovering (stopDiscovering st) = stopDiscovering st
  /\ browser_ (stopDiscovering st) = None
  /\ (is_Some (browser_ st) ->
      own (serviceCache_ (stopDiscovering st)) = ∅
      /\ protoFlags (serviceCache_ (stopDiscovering st))
         = protoFlags (serviceCache_ st)
      /\ fnFlags (serviceCache_ (stopDiscovering st)) = fnFlags (serviceCache_ st)
      /\ (protoFlags (serviceCache_ st) = [] -> fnFlags (serviceCache_ st) = ∅ ->
          forall myaddresses s,
            serviceAddressFilter myaddresses s (serviceCache_ (stopDiscovering st))
            = serviceAddressFilter myaddresses s freshCache))
  /\ (browser_ st = None -> stopDiscovering st = st).
Proof.
  unfold stopDiscovering. destruct (browser_ st) as [b|] eqn:Hb; cbn.
  - split; [reflexivity|]. split; [reflexivity|]. split; [|discriminate].
    intros _. split; [reflexivity|]. split; [reflexivity|].
    split; [reflexivity|]. intros Hp Hf myaddresses s.
    rewrite Hp, Hf. reflexivity.
  - rewrite Hb. split; [reflexivity|]. split; [first [assumption | reflexivity]|].
    split; [|reflexivity]. intros [b Hsome]. discriminate.
Qed.

(** ** The serviceUp handler *)

Lemma serviceUp_cache myaddresses q uf cb (s : service) (c : cache) :
  serviceQueryFilter q s = true ->
  hr_cache (serviceUp myaddresses q uf cb s c)
  = snd (serviceAddressFilter myaddresses s c).
Proof.
  intros Hq. rewrite (serviceUp_matched myaddresses q uf cb s c Hq). cbv zeta.
  destruct (fst (serviceAddressFilter myaddresses s c)) as [[|a l]|e];
    try reflexivity.
  destruct uf as [f|]; [|reflexivity].
  now destruct (f _) as [[|]|e].
Qed.

(** X18: a record delivered again by serviceUp, with nothing in between,
    causes no call to the application and no change of the cache, whatever
    the user filter and the callback did or do: also a record that the user
    filter rejected, or on which it raised, is not offered again.  The
    second delivery completes normally, unless the record satisfies the
    query and its admission raised the first time: then it raises again. *)
Theorem repeated_serviceUp_is_silent myaddresses q uf cb uf' cb'
    (s : service) (c : cache) :
  let first := serviceUp myaddresses q uf cb s c in
  let second := serviceUp myaddresses q uf' cb' s (hr_cache first) in
  hr_calls second = []
  /\ hr_cache second = hr_cache first
  /\ (serviceQueryFilter q s = false
      \/ (exists l, fst (serviceAddressFilter myaddresses s c) = Ok l) ->
      hr_completion second = Normal)
  /\ (serviceQueryFilter q s = true ->
      forall e, fst (serviceAddressFilter myaddresses s c) = Raise e ->
      hr_completion second = Thrown TypeError /\ hr_cache first = c).
Proof.
  cbv zeta. destruct (serviceQueryFilter q s) eqn:Hq.
  - rewrite (serviceUp_cache myaddresses q uf cb s c Hq).
    rewrite (serviceUp_matched myaddresses q uf' cb' s _ Hq). cbv zeta.
    destruct (fst (serviceAddressFilter myaddresses s c)) as [l|e] eqn:E.
    + rewrite (serviceAddressFilter_again myaddresses s c l E). cbn.
      split; [reflexivity|]. split; [reflexivity|]. split; [reflexivity|].
      intros _ e He. discriminate.
    + destruct (serviceAddressFilter_raised myaddresses s c e E) as [Heq _].
      rewrite Heq. cbn [snd]. rewrite Heq. cbn.
      split; [reflexivity|]. split; [reflexivity|]. split.
      * intros [H|[l H]]; discriminate.
      * intros _ e' _. split; reflexivity.
  - rewrite (serviceUp_unmatched myaddresses q uf cb s c Hq). cbn [hr_cache].
    rewrite (serviceUp_unmatched myaddresses q uf' cb' s c Hq). cbn.
    split; [reflexivity|]. split; [reflexivity|]. split; [reflexivity|].
    discriminate.
Qed.

(** X19: an error raised by the user filter is not caught: it leaves the
    handler, the callback is not called, and the addresses of the record
    have been cached all the same. *)
Theorem user_filter_error_escapes myaddresses (b : browser_t) f (s : service)
    (c : cache) (e : js_error) :
  serviceQueryFilter (b_query b) s = true ->
  admittedList (fst (serviceAddressFilter myaddresses s c)) <> [] ->
  b_filter b = Some f ->
  f (admittedRecord myaddresses s c) = FilterRaised e ->
  handleEvent myaddresses b (ServiceUpEvent s) c
  = {| hr_cache := snd (serviceAddressFilter myaddresses s c);
       hr_calls := [CallUserFilter (admittedRecord myaddresses s c)];
       hr_completion := Thrown e |}.
Proof.
  intros Hq Hadm Hf He. cbn [handleEvent].
  rewrite (serviceUp_matched myaddresses _ _ _ s c Hq). cbv zeta.
  destruct (fst (serviceAddressFilter myaddresses s c)) as [[|a l]|e'];
    cbn [admittedList] in Hadm; try congruence.
  rewrite Hf, He. reflexivity.
Qed.

Lemma user_filter_error_escapes_witness :
  handleEvent []
    {| b_type := "_zmq._tcp"; b_query := portQuery 9090;
       b_filter := Some (fun _ => FilterRaised TypeError);
       b_callback := fun _ => Returned; b_started := true |}
    (ServiceUpEvent actuatorRecord) freshCache
  = {| hr_cache := snd (serviceAddressFilter [] actuatorRecord freshCache);
       hr_calls := [CallUserFilter (admittedRecord [] actuatorRecord freshCache)];
       hr_completion := Thrown TypeError |}.
Proof.
  apply (user_filter_error_escapes []
           {| b_type := "_zmq._tcp"; b_query := portQuery 9090;
              b_filter := Some (fun _ => FilterRaised TypeError);
              b_callback := fun _ => Returned; b_started := true |}
           (fun _ => FilterRaised TypeError)); try reflexivity.
  vm_compute. discriminate.
Defined.

(** ** Queries, local addresses and advertising *)

Lemma in_fst_get {V} (o : jsobj V) k :
  In k (map fst o) <-> exists v, get o k = Some v.
Proof.
  split; [|intros [v Hv]; eapply get_Some_in_fst; exact Hv].
  induction o as [|[k0 v0] o IH]; simpl; [intros []|].
  destruct (String.eqb_spec k0 k) as [->|Hne]; [eauto|].
  intros [H|H]; [congruence | auto].
Qed.

(** X20: a query that specifies a name pattern or a (non-zero) port answers
    false on every record that matches none of its name pattern, port and
    property mapping. *)
Theorem name_or_port_query_rejects_unmatched (query : ServiceQuery) (r : service) :
  nameSpecified query = true \/ portSpecified query = true ->
  nameMatches query r = false ->
  portMatches query r = false ->
  propertiesMatch query r = false ->
  serviceQueryFilter query r = false.
Proof.
  intros Hspec Hn Hp Hq. unfold serviceQueryFilter. rewrite Hn, Hp, Hq.
  unfold nameSpecified, portSpecified in Hspec.
  destruct Hspec as [H|H]; rewrite H; cbn; [reflexivity|].
  now rewrite andb_false_r.
Qed.

Lemma name_or_port_query_rejects_unmatched_witness :
  serviceQueryFilter (portQuery 8080) actuatorRecord = false.
Proof.
  apply name_or_port_query_rejects_unmatched; [right| | |]; reflexivity.
Defined.

(** X21: the property mapping of a query matches a record exactly when both
    have properties and some key of the query carries, in the record, the
    same value, and that value is not the empty string: an empty value never
    matches, not even an empty value asked for. *)
Theorem propertiesMatch_iff (query : ServiceQuery) (r : service) :
  propertiesMatch query r = true
  <-> exists qprops rprops k v,
        q_properties (rawQuery query) = Some qprops
        /\ properties r = Some rprops
        /\ get qprops k = Some v /\ get rprops k = Some v /\ v <> "".
Proof.
  unfold propertiesMatch. split.
  - destruct (q_properties (rawQuery query)) as [qprops|]; [|discriminate].
    destruct (properties r) as [rprops|]; [|discriminate].
    intros H. apply existsb_exists in H. destruct H as [k [Hk Hm]].
    unfold propertyMatches in Hm.
    destruct (get rprops k) as [v|] eqn:Hr; [|discriminate].
    apply andb_prop in Hm. destruct Hm as [Ht Hm].
    destruct (get qprops k) as [qv|] eqn:Hqv; [|discriminate].
    apply String.eqb_eq in Hm. subst qv.
    exists qprops, rprops, k, v. repeat split; try assumption.
    intros ->. discriminate.
  - intros (qprops & rprops & k & v & -> & -> & Hq & Hr & Hv).
    apply existsb_exists. exists k. split.
    + apply in_keys, in_fst_get. eauto.
    + unfold propertyMatches. rewrite Hr, Hq, String.eqb_refl, andb_true_r.
      unfold truthy_string. apply negb_true_iff. now apply String.eqb_neq.
Qed.

(** X22: a query that carries nothing but a type (no name pattern, no port
    or port 0, no property mapping) answers true on every record. *)
Theorem type_only_query_accepts_all (query : ServiceQuery) (r : service) :
  nameRegEx query = None ->
  q_port (rawQuery query) = None \/ q_port (rawQuery query) = Some 0%Z ->
  q_properties (rawQuery query) = None ->
  query_properties query = None ->
  serviceQueryFilter query r = true.
Proof.
  intros Hn Hp Hq Hq'. unfold serviceQueryFilter, nameMatches, portMatches,
    propertiesMatch. rewrite Hn, Hq, Hq'.
  destruct Hp as [-> | ->]; cbn; destruct (port r); reflexivity.
Qed.

Lemma type_only_query_accepts_all_witness :
  serviceQueryFilter
    {| nameRegEx := None;
       rawQuery := {| q_type := "_zmq._tcp"; q_port := Some 0%Z;
                      q_properties := None |};
       query_properties := None |} actuatorRecord = true.
Proof.
  apply type_only_query_accepts_all; try reflexivity. right. reflexivity.
Defined.

(** ** Local addresses *)

Lemma in_pushAddresses a entries : forall acc,
  In a (pushAddresses acc entries)
  <-> In a acc
      \/ exists e, In e entries /\ ia_family e = "IPv4"
                   /\ ia_internal e = false /\ ia_address e = a.
Proof.
  unfold pushAddresses.
  induction entries as [|e entries IH]; intros acc; simpl.
  - split; [auto|]. intros [H|[e [[] _]]]. exact H.
  - rewrite IH.
    destruct (String.eqb (ia_family e) "IPv4" && negb (ia_internal e)) eqn:C.
    + apply andb_prop in C. destruct C as [Hf Hi].
      apply String.eqb_eq in Hf. apply negb_true_iff in Hi.
      rewrite in_app_iff. simpl. split.
      * intros [[H|[<-|[]]]|(e' & He' & H)]; [auto | |].
        -- right. exists e. auto.
        -- right. exists e'. auto.
      * intros [H|(e' & [<-|He'] & H)]; [auto | |].
        -- left. right. left. apply H.
        -- right. exists e'. auto.
    + split.
      * intros [H|(e' & He' & H)]; [auto|]. right. exists e'. auto.
      * intros [H|(e' & [<-|He'] & Hf & Hi & Ha)]; [auto | |].
        -- rewrite Hf, Hi in C. discriminate.
        -- right. exists e'. auto.
Qed.

(** X23: after [setMyAddresses] the local addresses are those that were
    there before and the addresses of the interface entries whose family is
    IPv4 and which are not internal; an internal (loopback) or a non-IPv4
    address is never added. *)
Theorem setMyAddresses_spec (ifs : jsobj (list interface_address))
    (myaddresses : list string) (a : string) :
  In a (setMyAddresses ifs myaddresses)
  <-> In a myaddresses
      \/ exists i entries e,
           get ifs i = Some entries /\ In e entries
           /\ ia_family e = "IPv4" /\ ia_internal e = false
           /\ ia_address e = a.
Proof.
  unfold setMyAddresses.
  assert (Hgen : forall ks acc,
    In a (fold_left (fun acc i => pushAddresses acc (default [] (get ifs i))) ks acc)
    <-> In a acc
        \/ exists i e, In i ks /\ In e (default [] (get ifs i))
             /\ ia_family e = "IPv4" /\ ia_internal e = false
             /\ ia_address e = a).
  { induction ks as [|k ks IH]; intros acc; simpl.
    - split; [auto|]. intros [H|(i & e & [] & _)]. exact H.
    - rewrite IH, in_pushAddresses. split.
      + intros [[H|(e & He & H)]|(i & e & Hi & H)]; [auto | | ].
        * right. exists k, e. auto.
        * right. exists i, e. auto.
      + intros [H|(i & e & [<-|Hi] & He & H)]; [auto | | ].
        * left. right. exists e. auto.
        * right. exists i, e. auto. }
  rewrite Hgen. split.
  - intros [H|(i & e & Hi & He & H)]; [auto|]. right.
    destruct (get ifs i) as [entries|] eqn:Hg; [|destruct He].
    exists i, entries, e. auto.
  - intros [H|(i & entries & e & Hg & He & H)]; [auto|]. right.
    exists i, e. split; [apply in_keys, in_fst_get; eauto|].
    rewrite Hg. auto.
Qed.

(** ** Advertising *)

(** X24: an advertisement is bound to a network interface exactly when the
    service has a non-empty address: to the loopback interface when the
    address is [LOCAL_ADDR], to the address itself otherwise.  [LOCAL_ADDR]
    is never passed on as an address. *)
Theorem advertiseService_interface (rawRecord : ServiceSpec) :
  (ad_networkInterface (advertiseService rawRecord) = None
   <-> spec_address rawRecord = None \/ spec_address rawRecord = Some "")
  /\ (ad_networkInterface (advertiseService rawRecord) = Some LoopbackInterface
      <-> spec_address rawRecord = Some LOCAL_ADDR)
  /\ (forall a,
        ad_networkInterface (advertiseService rawRecord) = Some (InterfaceAddress a)
        <-> spec_address rawRecord = Some a /\ a <> "" /\ a <> LOCAL_ADDR).
Proof.
  unfold advertiseService, LOCAL_ADDR.
  destruct (spec_address rawRecord) as [a|]; cbn.
  - destruct (truthy_string a) eqn:Ht; cbn.
    + assert (Hne : a <> "") by (intros ->; discriminate).
      destruct (String.eqb_spec a "127.0.0.1") as [->|Hl]; cbn;
        (split; [|split; [|intros a0]]); intuition congruence.
    + apply truthy_string_false in Ht. subst a.
      (split; [|split; [|intros a0]]); intuition congruence.
  - (split; [|split; [|intros a0]]); intuition congruence.
Qed.

(** ** Local services *)

(** X25: a list of addresses is local exactly when it is present and shares
    an address with the local addresses; a missing or empty list never is,
    and nothing is local on a host without local addresses. *)
Theorem serviceIsLocal_iff myaddresses (l : option (list string)) :
  serviceIsLocal myaddresses l = true
  <-> exists addrs x, l = Some addrs /\ In x addrs /\ In x myaddresses.
Proof.
  destruct l as [addrs|].
  - rewrite serviceIsLocal_true. split.
    + intros [x [Hx Hm]]. eauto.
    + intros (addrs' & x & [= <-] & Hx & Hm). eauto.
  - split; [discriminate|]. intros (addrs & x & H & _). discriminate.
Qed.

(** X26: once a local address has been cached for a name, every later
    record of that name that brings a new address is admitted as
    [[LOCAL_ADDR]], whatever addresses it reports itself.  The local address
    is cached by a record that reports it, under a name that does not look
    up to a boolean, when the cache lookup did not find it before. *)
Theorem local_service_stays_local myaddresses (s s' : service) (c : cache)
    nm addrs addrs' y a :
  name s = Some nm -> truthy_string nm = true -> addresses s = Some addrs ->
  resolve c nm <> IsPrimitive ->
  In y addrs -> In y myaddresses ->
  seen c nm y = false \/ In y (cachedKeys c nm) ->
  name s' = Some nm -> addresses s' = Some addrs' ->
  let c1 := snd (serviceAddressFilter myaddresses s c) in
  In a addrs' -> seen c1 nm a = false ->
  fst (serviceAddressFilter myaddresses s' c1) = Ok [LOCAL_ADDR].
Proof.
  intros Hn Ht Ha Hnp Hy Hm Hcached Hn' Ha'. cbv zeta.
  destruct (serviceAddressFilter_wellformed myaddresses s c nm addrs Hn Ht Ha Hnp)
    as (c1 & new & (Hnew & _ & Hkeys & _ & Hnp1 & _) & _ & _ & Heq).
  rewrite Heq. cbn [snd]. intros Hin Hf.
  destruct (serviceAddressFilter_wellformed myaddresses s' c1 nm addrs' Hn' Ht Ha' Hnp1)
    as (c2 & new' & (Hnew' & _ & Hkeys' & _) & _ & _ & Heq').
  rewrite Heq'. cbn [fst]. unfold admitted.
  destruct new' as [|first rest]; [exfalso; apply (Hnew' a); auto|].
  replace (serviceIsLocal myaddresses (Some (cachedKeys c2 nm))) with true;
    [reflexivity|].
  symmetry. apply serviceIsLocal_true. exists y. split; [|assumption].
  apply Hkeys'. left. apply Hkeys.
  destruct Hcached as [Hunseen|Hkey]; [right; apply Hnew; auto | now left].
Qed.

Lemma local_service_stays_local_witness :
  fst (serviceAddressFilter ["192.168.1.7"]
         (serviceNamed "sensor" ["10.0.0.5"; "10.0.1.9"])
         (snd (serviceAddressFilter ["192.168.1.7"]
                 (serviceNamed "sensor" ["192.168.1.7"]) freshCache)))
  = Ok [LOCAL_ADDR].
Proof.
  apply (local_service_stays_local ["192.168.1.7"]
           (serviceNamed "sensor" ["192.168.1.7"])
           _ freshCache "sensor" ["192.168.1.7"] ["10.0.0.5"; "10.0.1.9"]
           "192.168.1.7" "10.0.0.5"); try reflexivity.
  - vm_compute. discriminate.
  - simpl; auto.
  - simpl; auto.
  - left. reflexivity.
  - simpl; auto.
Defined.

(** ** A service that comes back *)

(** X27: when no user filter is installed, a serviceDown event followed by
    a serviceUp event of the same record makes the handler call the
    callback, on a host with a local address: a service that went down is
    reported again when it comes back.  The record satisfies the query, has
    a name that the cache object does not inherit, and reports an address
    that is not flagged on [Object.prototype]. *)
Theorem service_is_reported_again myaddresses (b : browser_t) (s : service)
    (c : cache) nm addrs a :
  myaddresses <> [] ->
  b_filter b = None ->
  serviceQueryFilter (b_query b) s = true ->
  name s = Some nm -> truthy_string nm = true ->
  addresses s = Some addrs ->
  plainName c nm ->
  In a addrs -> flag_set (protoFlags c) a = false ->
  let c1 := removeServiceFromCache s c in
  let r := handleEvents myaddresses b [ServiceDownEvent s; ServiceUpEvent s] c in
  hr_calls r
  = [CallCallback (getSuggestedServiceSpec (admittedRecord myaddresses s c1))]
  /\ suggestedAddresses (admittedRecord myaddresses s c1) <> []
  /\ hr_completion r = Normal.
Proof.
  intros Hm Hf Hq Hn Ht Ha Hplain Hin Hflag. cbv zeta.
  destruct (removed_then_admitted myaddresses s s c nm addrs a
              Hm Hn Hn Ht Ha Hplain Hin Hflag) as [_ (l & Hadm & Hne)].
  cbn [handleEvents handleEvent hr_completion hr_cache hr_calls].
  rewrite (serviceUp_matched myaddresses _ _ _ s _ Hq). cbv zeta. rewrite Hf, Hadm.
  destruct l as [|a0 l0]; [congruence|].
  cbn. split; [reflexivity|]. split; [|reflexivity].
  rewrite Hadm. discriminate.
Qed.

Lemma service_is_reported_again_witness :
  hr_completion
    (handleEvents ["10.0.0.1"]
       {| b_type := "_zmq._tcp"; b_query := portQuery 9090; b_filter := None;
          b_callback := failingCallback; b_started := true |}
       [ServiceDownEvent actuatorRecord; ServiceUpEvent actuatorRecord]
       (cacheOf {[ "valve" := [("10.0.0.5", true)] ]}))
  = Normal.
Proof.
  refine (proj2 (proj2 (service_is_reported_again ["10.0.0.1"]
            {| b_type := "_zmq._tcp"; b_query := portQuery 9090; b_filter := None;
               b_callback := failingCallback; b_started := true |}
            actuatorRecord (cacheOf {[ "valve" := [("10.0.0.5", true)] ]}) "valve"
            ["10.0.0.5"] "10.0.0.5" _ _ _ _ _ _ _ _ _))); try reflexivity.
  - discriminate.
  - repeat split. discriminate.
  - simpl; auto.
Defined.
